(** * Twitch provider utilities of vidstack-player

    A shallow embedding of [providers/twitch/utils.ts]:
    - [resolveTwitchSource] with its two regular expressions, run by a small
      backtracking matcher that follows the ECMAScript matching rules;
    - [twitchQualityToVideoQuality];
    - [findTwitchPoster] with its two module-level maps, as a transition
      system over the calls, the fetch completions and the promise
      reactions of the JavaScript event loop.

    JavaScript strings are modelled as [string]; a character class only ever
    accepts ASCII characters, so any other code unit behaves like an
    arbitrary non-matching character. *)

From Stdlib Require Import Ascii String NArith Lia DecimalString.
From stdpp Require Import gmap strings list fin_maps.

(** ** Regular expressions *)

Module Regex.

(** The syntax used by the two patterns of the file. [Plus] is the greedy
    [+] applied to a character class, which is the only way the patterns
    use it. Both patterns have a single capturing group, so the capture
    state is a single slot. *)
Inductive regex : Type :=
| Chars (s : string)
| Seq (r1 r2 : regex)
| Alt (r1 r2 : regex)
| Opt (r : regex)
| Plus (cls : ascii -> bool)
| Group (r : regex)
| NegLookahead (r : regex)
| EndOfInput.

(** [\d] *)
Definition digit (c : ascii) : bool :=
  let n := N_of_ascii c in ((48 <=? n) && (n <=? 57))%N.

(** [\w], that is [A-Za-z0-9_] *)
Definition word (c : ascii) : bool :=
  let n := N_of_ascii c in
  (((65 <=? n) && (n <=? 90)) || ((97 <=? n) && (n <=? 122))
   || digit c || (n =? 95))%N.

(** [strip p x] is the rest of [x] after the literal [p], when [x] starts
    with [p]. *)
Fixpoint strip (p x : string) {struct x} : option string :=
  match p with
  | EmptyString => Some x
  | String a p' =>
      match x with
      | EmptyString => None
      | String b x' => if Ascii.eqb a b then strip p' x' else None
      end
  end.

(** The part of [x] consumed when the rest of the input is [y]. *)
Definition consumed (x y : string) : string :=
  substring 0 (String.length x - String.length y) x.

(** A match state is the rest of the input and the capture slot; a
    continuation either completes the match or fails, which makes the
    matcher backtrack. *)
Definition mstate : Type := string * option string.
Definition cont : Type := string -> option string -> option mstate.

Definition accept : cont := fun y cap => Some (y, cap).

(** Greedy repetition of a class: take a further character first, fall
    back to the continuation when that fails. *)
Fixpoint star (cls : ascii -> bool) (x : string) (cap : option string)
    (k : cont) : option mstate :=
  match x with
  | String a x' =>
      if cls a then
        match star cls x' cap k with
        | Some r => Some r
        | None => k x cap
        end
      else k x cap
  | EmptyString => k x cap
  end.

Fixpoint m (r : regex) (x : string) (cap : option string) (k : cont)
    : option mstate :=
  match r with
  | Chars p =>
      match strip p x with
      | Some y => k y cap
      | None => None
      end
  | Seq r1 r2 => m r1 x cap (fun y cap' => m r2 y cap' k)
  | Alt r1 r2 =>
      match m r1 x cap k with
      | Some res => Some res
      | None => m r2 x cap k
      end
  | Opt r1 =>
      match m r1 x cap k with
      | Some res => Some res
      | None => k x cap
      end
  | Plus cls =>
      match x with
      | String a x' => if cls a then star cls x' cap k else None
      | EmptyString => None
      end
  | Group r1 => m r1 x cap (fun y _ => k y (Some (consumed x y)))
  | NegLookahead r1 =>
      match m r1 x cap accept with
      | Some _ => None
      | None => k x cap
      end
  | EndOfInput =>
      match x with
      | EmptyString => k x cap
      | String _ _ => None
      end
  end.

(** One attempt at the current position. *)
Definition exec_at (r : regex) (x : string) : option mstate :=
  m r x None accept.

(** [String.prototype.match] with a pattern without flags: the attempts
    start at index 0 and move right one position at a time, the last one
    at the end of the input. The result is [None] for [null], and
    otherwise the value of index [1] of the match array ([None] when the
    group did not take part). *)
Fixpoint js_match (r : regex) (x : string) : option (option string) :=
  match exec_at r x with
  | Some (_, cap) => Some cap
  | None =>
      match x with
      | String _ x' => js_match r x'
      | EmptyString => None
      end
  end.

(** Every character of [x] is in the class. *)
Fixpoint all_in (cls : ascii -> bool) (x : string) : bool :=
  match x with
  | EmptyString => true
  | String a x' => cls a && all_in cls x'
  end.

(** [x] starts with the literal [p]. *)
Definition starts_with (p x : string) : bool :=
  match strip p x with
  | Some _ => true
  | None => false
  end.

End Regex.

Import Regex.

(** ** resolveTwitchSource *)

(** [/(?:twitch\.tv\/|player\.twitch\.tv\/\?channel=|twitch\/)(?!videos?)(\w+)$/],
    in two parts: the alternation of literals, and what follows it. *)
Definition channelPrefix : regex :=
  Alt (Chars "twitch.tv/")
    (Alt (Chars "player.twitch.tv/?channel=") (Chars "twitch/")).

Definition channelRest : regex :=
  Seq (NegLookahead (Seq (Chars "video") (Opt (Chars "s"))))
      (Seq (Group (Plus word)) EndOfInput).

Definition channelNameRE : regex := Seq channelPrefix channelRest.

(** [/(?:twitch\.tv\/videos\/|player\.twitch\.tv\/\?video=|twitch\/video\/)(\d+)/] *)
Definition videoPrefix : regex :=
  Alt (Chars "twitch.tv/videos/")
    (Alt (Chars "player.twitch.tv/?video=") (Chars "twitch/video/")).

Definition videoRest : regex := Group (Plus digit).

Definition videoIdRE : regex := Seq videoPrefix videoRest.

(** The returned object: an absent property is [None]. *)
Record TwitchSource : Type := {
  channel : option string;
  videoId : option string;
}.

Definition resolveTwitchSource (src : string) : TwitchSource :=
  match js_match videoIdRE src with
  | Some videoIdMatch => {| channel := None; videoId := videoIdMatch |}
  | None =>
      match js_match channelNameRE src with
      | Some channelMatch => {| channel := channelMatch; videoId := None |}
      | None => {| channel := None; videoId := None |}
      end
  end.

(** ** twitchQualityToVideoQuality *)

(** Modelled from the spec: the interfaces [TwitchQuality] (embed/event) and
    [VideoQuality] (core/quality/video-quality) are declared in other
    modules. The records keep the properties the adapter reads and writes;
    JavaScript numbers are only copied, so their type is a parameter. *)
Module TwitchQuality.
Record t (number : Type) : Type := mk {
  name : string;
  width : number;
  height : number;
  bitrate : number;
  codecs : string;
}.
Arguments mk {number}.
Arguments name {number}.
Arguments width {number}.
Arguments height {number}.
Arguments bitrate {number}.
Arguments codecs {number}.
End TwitchQuality.

Module VideoQuality.
Record t (number : Type) : Type := mk {
  id : string;
  width : number;
  height : number;
  bitrate : number;
  codec : string;
  selected : bool;
}.
Arguments mk {number}.
Arguments id {number}.
Arguments width {number}.
Arguments height {number}.
Arguments bitrate {number}.
Arguments codec {number}.
Arguments selected {number}.
End VideoQuality.

(** [activeQuality === quality.name], where an omitted argument is
    [undefined] and equals no string. *)
Definition strict_eq (a : option string) (b : string) : bool :=
  match a with
  | Some a' => String.eqb a' b
  | None => false
  end.

Definition twitchQualityToVideoQuality {number : Type}
    (quality : TwitchQuality.t number) (activeQuality : option string)
    : VideoQuality.t number :=
  {| VideoQuality.id := TwitchQuality.name quality;
     VideoQuality.width := TwitchQuality.width quality;
     VideoQuality.height := TwitchQuality.height quality;
     VideoQuality.bitrate := TwitchQuality.bitrate quality;
     VideoQuality.codec := TwitchQuality.codecs quality;
     VideoQuality.selected := strict_eq activeQuality (TwitchQuality.name quality) |}.

(** ** findTwitchPoster *)

(** An entry of the [sizes] arrays. The channel branch and the video branch
    each declare the array, with the same three entries. *)
Record size : Type := { width : N; height : N }.

Definition sizes : list size :=
  [ {| width := 1920; height := 1080 |};
    {| width := 1280; height := 720 |};
    {| width := 640; height := 360 |} ].

(** A number inside a template literal. *)
Definition num (n : N) : string := NilEmpty.string_of_uint (N.to_uint n).

(** The two URL templates. *)
Definition channelUrl (src : string) (sz : size) : string :=
  "https://static-cdn.jtvnw.net/previews-ttv/live_user_" +:+ src +:+ "-"
    +:+ num (width sz) +:+ "x" +:+ num (height sz) +:+ ".jpg".

Definition videoUrl (src : string) (sz : size) : string :=
  "https://static-cdn.jtvnw.net/cf_vods/" +:+ src +:+ "/thumb/thumb0-"
    +:+ num (width sz) +:+ "x" +:+ num (height sz) +:+ ".jpg".

Definition posterUrl (isChannel : bool) (src : string) (sz : size) : string :=
  if isChannel then channelUrl src sz else videoUrl src sz.

Definition cacheKey (src : string) (isChannel : bool) : string :=
  (if isChannel then "channel" else "video") +:+ "-" +:+ src.

(** How an awaited [fetch] ends: with a response, or by rejecting (a
    network error, or an abort through the [AbortController] signal). *)
Inductive fetchOutcome : Type :=
| Response (status : N)
| NetworkError.

(** The state of a promise. *)
Inductive promise : Type :=
| Pending
| Fulfilled (v : string)
| Rejected.

(** What a stretch of the executor's [try] block ends with: it suspends at
    [await fetch(url)] with the sizes still to visit, it stores and resolves
    a found URL (lines 108-110 and 130-132), it resolves the empty string
    after the loop (line 137), or an exception leaves the block. *)
Inductive completion : Type :=
| Await (url : string) (rest : list size)
| Found (url : string)
| NotFound
| Throw.

(** The head of the [for ... of] loop. *)
Definition loop (isChannel : bool) (src : string) (rest : list size)
    : completion :=
  match rest with
  | [] => NotFound
  | sz :: rest' => Await (posterUrl isChannel src sz) rest'
  end.

(** The loop body after the awaited fetch has ended. *)
Definition after_fetch (isChannel : bool) (src url : string)
    (rest : list size) (o : fetchOutcome) : completion :=
  match o with
  | NetworkError => Throw
  | Response status =>
      if (status <? 400)%N then Found url else loop isChannel src rest
  end.

(** [catch (e) { resolve('') }] *)
Definition try_catch (c : completion) : completion :=
  match c with
  | Throw => NotFound
  | _ => c
  end.

(** [.catch(() => '')] *)
Definition catch_empty (p : promise) : promise :=
  match p with
  | Rejected => Fulfilled EmptyString
  | _ => p
  end.

(** One [new Promise(...)] of [findTwitchPoster] with its executor. [frame]
    is the suspended executor: the awaited URL and the sizes not yet
    visited. [inner] is the promise the executor resolves, [outer] the one
    derived from it by [.catch(...).finally(...)], which is the one stored
    in [pendingFetch] and returned. [log] records the ended fetches of this
    executor, oldest first; it is not program state. *)
Record task : Type := {
  t_src : string;
  t_isChannel : bool;
  frame : option (string * list size);
  inner : promise;
  outer : promise;
  log : list (string * fetchOutcome);
}.

Definition t_key (t : task) : string := cacheKey (t_src t) (t_isChannel t).

(** The module state: the two maps, the promises created so far (a promise
    is named by its index), and the URLs passed to [fetch] so far, oldest
    first. *)
Record state : Type := {
  posterCache : gmap string string;
  pendingFetch : gmap string nat;
  tasks : list task;
  fetched : list string;
}.

Definition init : state :=
  {| posterCache := ∅; pendingFetch := ∅; tasks := []; fetched := [] |}.

(** The effect of a completion of the executor of [t] on the task and on the
    shared state. *)
Definition settle_frame (t : task) (lg : list (string * fetchOutcome))
    (c : completion) (s : state) : task * state :=
  match c with
  | Await url rest =>
      ({| t_src := t_src t; t_isChannel := t_isChannel t;
          frame := Some (url, rest); inner := inner t; outer := outer t;
          log := lg |},
       {| posterCache := posterCache s; pendingFetch := pendingFetch s;
          tasks := tasks s; fetched := fetched s ++ [url] |})
  | Found url =>
      ({| t_src := t_src t; t_isChannel := t_isChannel t;
          frame := None; inner := Fulfilled url; outer := outer t;
          log := lg |},
       {| posterCache := <[t_key t := url]> (posterCache s);
          pendingFetch := pendingFetch s;
          tasks := tasks s; fetched := fetched s |})
  | NotFound =>
      ({| t_src := t_src t; t_isChannel := t_isChannel t;
          frame := None; inner := Fulfilled EmptyString; outer := outer t;
          log := lg |}, s)
  | Throw =>
      ({| t_src := t_src t; t_isChannel := t_isChannel t;
          frame := None; inner := Rejected; outer := outer t;
          log := lg |}, s)
  end.

Definition set_tasks (ts : list task) (s : state) : state :=
  {| posterCache := posterCache s; pendingFetch := pendingFetch s;
     tasks := ts; fetched := fetched s |}.

(** What a call hands back: an [async] function that returns a string gives
    a promise fulfilled with it; one that returns a promise gives a promise
    that follows it. *)
Inductive returned : Type :=
| Value (v : string)
| Promise (p : nat).

(** The call itself. The executor runs synchronously up to its first
    [await]; the [abort] argument only reaches [fetch], whose rejection is a
    [NetworkError] outcome. *)
Definition findTwitchPoster (src : string) (isChannel : bool) (s : state)
    : returned * state :=
  let cacheKey := cacheKey src isChannel in
  match posterCache s !! cacheKey with
  | Some url => (Value url, s)
  | None =>
      match pendingFetch s !! cacheKey with
      | Some p => (Promise p, s)
      | None =>
          let pending := length (tasks s) in
          let t0 := {| t_src := src; t_isChannel := isChannel;
                       frame := None; inner := Pending; outer := Pending;
                       log := [] |} in
          let '(t, s1) :=
            settle_frame t0 [] (try_catch (loop isChannel src sizes)) s in
          (Promise pending,
           {| posterCache := posterCache s1;
              pendingFetch := <[cacheKey := pending]> (pendingFetch s1);
              tasks := tasks s1 ++ [t];
              fetched := fetched s1 |})
      end
  end.

(** The awaited fetch of promise [p] ends with [o]: the executor resumes. *)
Definition fetch_settles (p : nat) (o : fetchOutcome) (s : state)
    : option state :=
  match tasks s !! p with
  | Some t =>
      match frame t with
      | Some (url, rest) =>
          let '(t', s1) :=
            settle_frame t (log t ++ [(url, o)])
              (try_catch (after_fetch (t_isChannel t) (t_src t) url rest o)) s in
          Some (set_tasks (<[p := t']> (tasks s1)) s1)
      | None => None
      end
  | None => None
  end.

(** The reactions of [.catch(() => '').finally(() => pendingFetch.delete(cacheKey))]
    run once the inner promise of [p] is settled: the key leaves
    [pendingFetch] and the outer promise settles. They are jobs of their
    own, queued when the executor resolves its promise, so other jobs, and
    with them other calls, can run before them. This step is the schedule
    in which the callback and the settlement of the outer promise follow
    each other with no other job in between; [run_callback] and
    [settle_returned] below are the two as separate jobs. *)
Definition run_finally (p : nat) (s : state) : option state :=
  match tasks s !! p with
  | Some t =>
      match inner t, outer t with
      | Pending, _ => None
      | settled, Pending =>
          let t' := {| t_src := t_src t; t_isChannel := t_isChannel t;
                       frame := frame t; inner := inner t;
                       outer := catch_empty settled; log := log t |} in
          Some {| posterCache := posterCache s;
                  pendingFetch := delete (t_key t) (pendingFetch s);
                  tasks := <[p := t']> (tasks s);
                  fetched := fetched s |}
      | _, _ => None
      end
  | None => None
  end.

(** What the event loop can do next. *)
Inductive event : Type :=
| Call (src : string) (isChannel : bool)
| FetchSettles (p : nat) (o : fetchOutcome)
| RunFinally (p : nat).

Definition step (e : event) (s : state) : option state :=
  match e with
  | Call src isChannel => Some (snd (findTwitchPoster src isChannel s))
  | FetchSettles p o => fetch_settles p o s
  | RunFinally p => run_finally p s
  end.

Fixpoint run (es : list event) (s : state) : option state :=
  match es with
  | [] => Some s
  | e :: es' =>
      match step e s with
      | Some s' => run es' s'
      | None => None
      end
  end.

(** The reachable states are the [s] with [run es init = Some s]. *)

(** Driving one promise to its end: [finish] runs the reactions once the
    inner promise is settled, [drive] first feeds the awaited fetches with
    the outcomes at hand. *)
Definition finish (p : nat) (s : state) : state :=
  match run_finally p s with
  | Some s' => s'
  | None => s
  end.

Fixpoint drive (p : nat) (os : list fetchOutcome) (s : state) : state :=
  match os with
  | [] => finish p s
  | o :: os' =>
      match fetch_settles p o s with
      | Some s' => drive p os' s'
      | None => finish p s
      end
  end.

(** ** Vocabulary of the statements *)

(** A fetch that ended with a response that is not a success. *)
Definition failed (e : string * fetchOutcome) : bool :=
  match snd e with
  | Response status => (400 <=? status)%N
  | NetworkError => false
  end.

(** The URLs a promise has probed so far, in order: the ended fetches and
    the awaited one. *)
Definition probes (t : task) : list string :=
  map fst (log t)
  ++ match frame t with
     | Some (url, _) => [url]
     | None => []
     end.

(** The URLs of the three sizes for the source of [t]. *)
Definition urls_of (t : task) : list string :=
  map (posterUrl (t_isChannel t) (t_src t)) sizes.


(** The shapes a promise of [findTwitchPoster] goes through. *)
Definition task_ok (t : task) : Prop :=
  match frame t with
  | Some (url, rest) =>
      inner t = Pending /\ outer t = Pending
      /\ forallb failed (log t) = true
      /\ map fst (log t) ++ url :: map (posterUrl (t_isChannel t) (t_src t)) rest
         = urls_of t
  | None =>
      (outer t = Pending \/ outer t = inner t)
      /\ ((exists lg url status,
              log t = lg ++ [(url, Response status)] /\ (status < 400)%N
              /\ forallb failed lg = true /\ inner t = Fulfilled url
              /\ exists more, map fst (log t) ++ more = urls_of t)
          \/ (inner t = Fulfilled EmptyString
              /\ forallb failed (log t) = true
              /\ map fst (log t) = urls_of t)
          \/ (inner t = Fulfilled EmptyString
              /\ exists lg url,
                  log t = lg ++ [(url, NetworkError)]
                  /\ forallb failed lg = true
                  /\ exists more, map fst (log t) ++ more = urls_of t))
  end.

(** The invariant of the two maps. *)
Record Inv (s : state) : Prop := {
  inv_tasks : forall p t, tasks s !! p = Some t -> task_ok t;
  inv_pending : forall k p,
    pendingFetch s !! k = Some p
    <-> exists t, tasks s !! p = Some t /\ t_key t = k /\ outer t = Pending;
  inv_cache : forall k u,
    posterCache s !! k = Some u
    <-> exists p t, tasks s !! p = Some t /\ t_key t = k
                    /\ inner t = Fulfilled u /\ u <> EmptyString;
  inv_await : forall p t u,
    tasks s !! p = Some t -> outer t = Pending ->
    posterCache s !! t_key t = Some u -> inner t = Fulfilled u;
}.

(** ** The reactions as separate jobs *)

(** By [Promise.prototype.finally] the callback runs first and the promise
    that [.finally(...)] returned settles some jobs later. [cleaned] holds
    the promises whose callback has run. *)
Record fstate : Type := {
  base : state;
  cleaned : gset nat;
}.

Definition finit : fstate := {| base := init; cleaned := ∅ |}.

(** [() => pendingFetch.delete(cacheKey)], run once, after the inner promise
    of [p] is settled. *)
Definition run_callback (p : nat) (fs : fstate) : option fstate :=
  match tasks (base fs) !! p with
  | Some t =>
      match inner t with
      | Pending => None
      | _ =>
          if decide (p ∈ cleaned fs) then None
          else
            Some {| base :=
                      {| posterCache := posterCache (base fs);
                         pendingFetch :=
                           delete (t_key t) (pendingFetch (base fs));
                         tasks := tasks (base fs);
                         fetched := fetched (base fs) |};
                    cleaned := {[p]} ∪ cleaned fs |}
      end
  | None => None
  end.

(** The outer promise of [p] settles, after its callback has run. *)
Definition settle_returned (p : nat) (fs : fstate) : option fstate :=
  match tasks (base fs) !! p with
  | Some t =>
      if decide (p ∈ cleaned fs) then
        match outer t with
        | Pending =>
            let t' := {| t_src := t_src t; t_isChannel := t_isChannel t;
                         frame := frame t; inner := inner t;
                         outer := catch_empty (inner t); log := log t |} in
            Some {| base := set_tasks (<[p := t']> (tasks (base fs))) (base fs);
                    cleaned := cleaned fs |}
        | _ => None
        end
      else None
  | None => None
  end.

(** The jobs of the event loop: a call of [findTwitchPoster], the end of
    the fetch a promise awaits, the finally callback of a promise, and the
    settlement of the promise that [.finally(...)] returned. *)
Inductive job : Type :=
| JCall (src : string) (isChannel : bool)
| JFetch (p : nat) (o : fetchOutcome)
| JCallback (p : nat)
| JSettle (p : nat).

(** A job that does not touch [cleaned]. *)
Definition on_base (f : state -> option state) (fs : fstate) : option fstate :=
  match f (base fs) with
  | Some s' => Some {| base := s'; cleaned := cleaned fs |}
  | None => None
  end.

(** One job; [None] when it cannot run in this state. *)
Definition fstep (j : job) (fs : fstate) : option fstate :=
  match j with
  | JCall src isChannel =>
      on_base (fun s => Some (snd (findTwitchPoster src isChannel s))) fs
  | JFetch p o => on_base (fetch_settles p o) fs
  | JCallback p => run_callback p fs
  | JSettle p => settle_returned p fs
  end.

Fixpoint frun (js : list job) (fs : fstate) : option fstate :=
  match js with
  | [] => Some fs
  | j :: js' =>
      match fstep j fs with
      | Some fs' => frun js' fs'
      | None => None
      end
  end.

(** The jobs behind an event of the coarser machine. *)
Definition jobs_of (e : event) : list job :=
  match e with
  | Call src isChannel => [JCall src isChannel]
  | FetchSettles p o => [JFetch p o]
  | RunFinally p => [JCallback p; JSettle p]
  end.

(** The invariant of the two maps with the reactions as separate jobs. *)
Record FInv (fs : fstate) : Prop := {
  f_tasks : forall p t, tasks (base fs) !! p = Some t -> task_ok t;
  f_pending : forall k p,
    pendingFetch (base fs) !! k = Some p
    <-> exists t, tasks (base fs) !! p = Some t /\ t_key t = k
                  /\ p ∉ cleaned fs;
  f_cache : forall k u,
    posterCache (base fs) !! k = Some u
    <-> exists p t, tasks (base fs) !! p = Some t /\ t_key t = k
                    /\ inner t = Fulfilled u /\ u <> EmptyString;
  f_await : forall p t u,
    tasks (base fs) !! p = Some t -> p ∉ cleaned fs ->
    posterCache (base fs) !! t_key t = Some u -> inner t = Fulfilled u;
  f_cleaned : forall p,
    p ∈ cleaned fs ->
    exists t, tasks (base fs) !! p = Some t /\ frame t = None;
  f_outer : forall p t,
    tasks (base fs) !! p = Some t -> outer t <> Pending -> p ∈ cleaned fs;
}.

(** ** TwitchProviderLoader.loadPoster *)

(** Modelled from the spec: the [Src] interface (core/api/src-types) is
    declared in another module. Its [src] property is a string or a value
    of another kind, which is [None] here; [isString] of maverick.js is the
    test for the first case. *)
Module Src.
Record t : Type := mk { src : option string; type : string }.
End Src.

Definition isString (v : option string) : bool :=
  match v with
  | Some _ => true
  | None => false
  end.

(** A destructured property used as a condition: [undefined] and the empty
    string are falsy. *)
Definition truthy (v : option string) : option string :=
  match v with
  | Some (String a x) => Some (String a x)
  | _ => None
  end.

(** The result of [loadPoster]: [null], or what [findTwitchPoster] returned. *)
Inductive loaded : Type :=
| Null
| Loaded (r : returned).

(** The body of [loadPoster] once the utilities module is imported. *)
Definition loadPoster (src : Src.t) (s : state) : loaded * state :=
  if negb (isString (Src.src src)) then (Null, s)
  else
    match Src.src src with
    | None => (Null, s)
    | Some str =>
        let r := resolveTwitchSource str in
        match truthy (channel r) with
        | Some channel =>
            let '(x, s') := findTwitchPoster channel true s in (Loaded x, s')
        | None =>
            match truthy (videoId r) with
            | Some videoId =>
                let '(x, s') := findTwitchPoster videoId false s in
                (Loaded x, s')
            | None => (Null, s)
            end
        end
    end.

(** ** TwitchProviderLoader.preconnect *)

(** The [connections] array of loader.ts. *)
Definition connections : list string :=
  [ "https://player.twitch.tv";
    "https://static-cdn.jtvnw.net";
    "https://static.twitchcdn.net";
    "https://usher.ttvnw.net";
    "https://gql.twitch.tv" ].

(** The loop over [connections]: the [preconnect] of utils/network is called
    once per entry, in order. The state is the list of URLs it has been
    called with so far. *)
Definition preconnect (hinted : list string) : list string :=
  fold_left (fun acc url => acc ++ [url]) connections hinted.

(** ** Further vocabulary *)

(** The literals of the two patterns, in the order of the alternation. *)
Definition channelLiterals : list string :=
  [ "twitch.tv/"; "player.twitch.tv/?channel="; "twitch/" ].

Definition videoLiterals : list string :=
  [ "twitch.tv/videos/"; "player.twitch.tv/?video="; "twitch/video/" ].

(** The first character of [x] is in the class. *)
Definition starts_in (cls : ascii -> bool) (x : string) : bool :=
  match x with
  | String a _ => cls a
  | EmptyString => false
  end.

(** A name the channel pattern captures. *)
Definition channel_name (c : string) : Prop :=
  c <> EmptyString /\ all_in word c = true /\ starts_with "video" c = false.

(** The number of calls among the events. *)
Definition a_call (e : event) : bool :=
  match e with
  | Call _ _ => true
  | _ => false
  end.

Definition calls (es : list event) : nat := length (List.filter a_call es).

(** The fetches of all probe sequences together. *)
Definition probed (ts : list task) : nat :=
  sum_list_with (fun t => length (probes t)) ts.

(** * Examples *)

Example resolve_ex1 :
  resolveTwitchSource "https://www.twitch.tv/example"
  = {| channel := Some "example"; videoId := None |}.
Proof. reflexivity. Qed.

Example resolve_ex2 :
  resolveTwitchSource "https://player.twitch.tv/?video=123456789"
  = {| channel := None; videoId := Some "123456789" |}.
Proof. reflexivity. Qed.

Example resolve_ex3 :
  resolveTwitchSource "https://www.twitch.tv/videogamer"
  = {| channel := None; videoId := None |}.
Proof. reflexivity. Qed.

Example resolve_ex4 :
  resolveTwitchSource "https://www.twitch.tv/videos/12?x=twitch/abc"
  = {| channel := None; videoId := Some "12" |}
  /\ js_match channelNameRE "https://www.twitch.tv/videos/12?x=twitch/abc" = Some (Some "abc").
Proof. split; reflexivity. Qed.

Example poster_ex1 :
  run [Call "x" true; FetchSettles 0 (Response 404); FetchSettles 0 (Response 200);
       RunFinally 0] init
  = Some {| posterCache := {[ "channel-x" := "https://static-cdn.jtvnw.net/previews-ttv/live_user_x-1280x720.jpg" ]};
            pendingFetch := ∅;
            tasks := [ {| t_src := "x"; t_isChannel := true; frame := None;
                          inner := Fulfilled "https://static-cdn.jtvnw.net/previews-ttv/live_user_x-1280x720.jpg";
                          outer := Fulfilled "https://static-cdn.jtvnw.net/previews-ttv/live_user_x-1280x720.jpg";
                          log := [("https://static-cdn.jtvnw.net/previews-ttv/live_user_x-1920x1080.jpg", Response 404);
                                  ("https://static-cdn.jtvnw.net/previews-ttv/live_user_x-1280x720.jpg", Response 200)] |} ];
            fetched := ["https://static-cdn.jtvnw.net/previews-ttv/live_user_x-1920x1080.jpg";
                        "https://static-cdn.jtvnw.net/previews-ttv/live_user_x-1280x720.jpg"] |}.
Proof. vm_compute. reflexivity. Qed.

(** * Properties of the matcher *)

Section MatcherFacts.

Lemma strip_nil (x : string) : strip EmptyString x = Some x.
Proof. destruct x; reflexivity. Qed.

Lemma strip_cons (a b : ascii) (p x : string) :
  strip (String a p) (String b x) = if Ascii.eqb a b then strip p x else None.
Proof. reflexivity. Qed.

Lemma append_cons (a : ascii) (x y : string) :
  String a x +:+ y = String a (x +:+ y).
Proof. reflexivity. Qed.

Lemma strip_app (p y : string) : strip p (p +:+ y) = Some y.
Proof.
  induction p as [|a p IH].
  - apply strip_nil.
  - rewrite append_cons, strip_cons, Ascii.eqb_refl. exact IH.
Qed.

Lemma strip_Some (p x y : string) : strip p x = Some y -> x = p +:+ y.
Proof.
  revert x. induction p as [|a p IH]; intros x H.
  - rewrite strip_nil in H. injection H as ->. reflexivity.
  - destruct x as [|b x]; [discriminate|].
    rewrite strip_cons in H.
    destruct (Ascii.eqb a b) eqn:E; [|discriminate].
    apply Ascii.eqb_eq in E. subst b.
    rewrite append_cons. f_equal. apply IH, H.
Qed.

Lemma all_in_app (cls : ascii -> bool) (x y : string) :
  all_in cls (x +:+ y) = all_in cls x && all_in cls y.
Proof.
  induction x as [|a x IH]; [reflexivity|].
  rewrite append_cons. simpl. rewrite IH. apply andb_assoc.
Qed.

(** A literal with a character outside the class is not found at the start
    of a string made of the class. *)
Lemma strip_outside (cls : ascii -> bool) (p x : string) :
  all_in cls p = false -> all_in cls x = true -> strip p x = None.
Proof.
  intros Hp Hx. destruct (strip p x) as [y|] eqn:E; [|reflexivity].
  apply strip_Some in E. subst x. rewrite all_in_app, Hp in Hx. discriminate.
Qed.

Lemma all_in_tail (cls : ascii -> bool) (a : ascii) (x : string) :
  all_in cls (String a x) = true -> all_in cls x = true.
Proof. simpl. intros H. apply andb_prop in H. tauto. Qed.

Lemma substring_whole (x : string) : substring 0 (String.length x) x = x.
Proof. induction x as [|a x IH]; simpl; [reflexivity|]. now rewrite IH. Qed.

Lemma consumed_whole (x : string) : consumed x EmptyString = x.
Proof.
  unfold consumed. simpl String.length at 2. rewrite Nat.sub_0_r.
  apply substring_whole.
Qed.

(** The greedy repetition takes the whole rest of the input when it is made
    of the class and the continuation accepts the end of the input. *)
Lemma star_all (cls : ascii -> bool) (x : string) (cap : option string)
    (k : cont) (r : mstate) :
  all_in cls x = true -> k EmptyString cap = Some r -> star cls x cap k = Some r.
Proof.
  intros Hx Hk. induction x as [|a x IH]; simpl in *; [exact Hk|].
  apply andb_prop in Hx. destruct Hx as [Ha Hx].
  rewrite Ha, (IH Hx). reflexivity.
Qed.

(** The repetition only ever ends through its continuation. *)
Lemma star_through (cls : ascii -> bool) (x : string) (cap : option string)
    (k : cont) (r : mstate) :
  star cls x cap k = Some r -> exists y, k y cap = Some r.
Proof.
  induction x as [|a x IH]; simpl; intros H; [eauto|].
  destruct (cls a); [|eauto].
  destruct (star cls x cap k) eqn:E; [|eauto].
  inversion H; subst. auto.
Qed.

Lemma js_match_cons (r : regex) (a : ascii) (x : string) :
  js_match r (String a x)
  = match exec_at r (String a x) with
    | Some (_, cap) => Some cap
    | None => js_match r x
    end.
Proof. reflexivity. Qed.

Lemma starts_with_false (p x : string) :
  starts_with p x = false -> strip p x = None.
Proof. unfold starts_with. destruct (strip p x); [discriminate|reflexivity]. Qed.

(** One attempt of each pattern, literal by literal. *)
Lemma exec_video (x : string) :
  exec_at videoIdRE x
  = match
      match strip "twitch.tv/videos/" x with
      | Some y => m videoRest y None accept
      | None => None
      end
    with
    | Some res => Some res
    | None =>
        match
          match strip "player.twitch.tv/?video=" x with
          | Some y => m videoRest y None accept
          | None => None
          end
        with
        | Some res => Some res
        | None =>
            match strip "twitch/video/" x with
            | Some y => m videoRest y None accept
            | None => None
            end
        end
    end.
Proof. reflexivity. Qed.

Lemma exec_channel (x : string) :
  exec_at channelNameRE x
  = match
      match strip "twitch.tv/" x with
      | Some y => m channelRest y None accept
      | None => None
      end
    with
    | Some res => Some res
    | None =>
        match
          match strip "player.twitch.tv/?channel=" x with
          | Some y => m channelRest y None accept
          | None => None
          end
        with
        | Some res => Some res
        | None =>
            match strip "twitch/" x with
            | Some y => m channelRest y None accept
            | None => None
            end
        end
    end.
Proof. reflexivity. Qed.

(** No video match starts inside a run of word characters: each literal of
    the video pattern has a character outside [\w]. *)
Lemma video_none_in_word (w : string) :
  all_in word w = true -> js_match videoIdRE w = None.
Proof.
  induction w as [|a w IH]; intros Hw.
  - reflexivity.
  - rewrite js_match_cons, exec_video.
    rewrite (strip_outside word "twitch.tv/videos/" _ eq_refl Hw).
    rewrite (strip_outside word "player.twitch.tv/?video=" _ eq_refl Hw).
    rewrite (strip_outside word "twitch/video/" _ eq_refl Hw).
    apply IH. eapply all_in_tail, Hw.
Qed.

(** What follows the literal in the channel pattern, on a name made of word
    characters that does not start with [video]: the lookahead passes, the
    group takes the whole name and [$] holds. *)
Lemma channel_tail (n : string) :
  n <> EmptyString -> all_in word n = true -> starts_with "video" n = false ->
  m channelRest n None accept = Some (EmptyString, Some n).
Proof.
  intros Hne Hw Hv. apply starts_with_false in Hv.
  unfold channelRest. cbn [m]. rewrite Hv.
  destruct n as [|a n]; [congruence|].
  simpl in Hw. apply andb_prop in Hw. destruct Hw as [Ha Hw].
  rewrite Ha. apply star_all; [exact Hw|].
  rewrite consumed_whole. reflexivity.
Qed.

(** The group of the video pattern on a run of digits up to the end. *)
Lemma video_tail (d : string) :
  d <> EmptyString -> all_in digit d = true ->
  m videoRest d None accept = Some (EmptyString, Some d).
Proof.
  intros Hne Hd. unfold videoRest. cbn [m].
  destruct d as [|a d]; [congruence|].
  simpl in Hd. apply andb_prop in Hd. destruct Hd as [Ha Hd].
  rewrite Ha. apply star_all; [exact Hd|].
  rewrite consumed_whole. reflexivity.
Qed.

(** The attempts over the known part of an input. *)
Ltac attempt E :=
  rewrite js_match_cons, E; cbn [strip Ascii.eqb Bool.eqb]; rewrite ?strip_nil.

Lemma channel_of_name (n : string) :
  n <> EmptyString -> all_in word n = true -> starts_with "video" n = false ->
  js_match videoIdRE ("https://www.twitch.tv/" +:+ n) = None
  /\ js_match channelNameRE ("https://www.twitch.tv/" +:+ n) = Some (Some n)
  /\ js_match videoIdRE ("https://player.twitch.tv/?channel=" +:+ n) = None
  /\ js_match channelNameRE ("https://player.twitch.tv/?channel=" +:+ n) = Some (Some n)
  /\ js_match videoIdRE ("twitch/" +:+ n) = None
  /\ js_match channelNameRE ("twitch/" +:+ n) = Some (Some n).
Proof.
  intros Hne Hw Hv.
  pose proof (strip_outside word "videos/" n eq_refl Hw) as H1.
  pose proof (strip_outside word "video/" n eq_refl Hw) as H2.
  pose proof (channel_tail n Hne Hw Hv) as Hc.
  pose proof (video_none_in_word n Hw) as Hn.
  cbv [String.append].
  repeat split.
  - repeat (attempt exec_video; rewrite ?H1, ?H2). exact Hn.
  - repeat (attempt exec_channel; rewrite ?Hc). reflexivity.
  - repeat (attempt exec_video; rewrite ?H1, ?H2). exact Hn.
  - repeat (attempt exec_channel; rewrite ?Hc). reflexivity.
  - repeat (attempt exec_video; rewrite ?H1, ?H2). exact Hn.
  - repeat (attempt exec_channel; rewrite ?Hc). reflexivity.
Qed.

Lemma video_of_digits (d : string) :
  d <> EmptyString -> all_in digit d = true ->
  js_match videoIdRE ("https://www.twitch.tv/videos/" +:+ d) = Some (Some d)
  /\ js_match videoIdRE ("https://player.twitch.tv/?video=" +:+ d) = Some (Some d)
  /\ js_match videoIdRE ("twitch/video/" +:+ d) = Some (Some d).
Proof.
  intros Hne Hd.
  pose proof (video_tail d Hne Hd) as Hv.
  cbv [String.append].
  repeat split; repeat (attempt exec_video; rewrite ?Hv); reflexivity.
Qed.

(** A match of either pattern always fills the group. *)
Lemma video_rest_captures (y z : string) (c : option string) :
  m videoRest y None accept = Some (z, c) -> exists d, c = Some d.
Proof.
  unfold videoRest. cbn [m]. destruct y as [|a y]; [discriminate|].
  destruct (digit a); [|discriminate].
  intros H. apply star_through in H. destruct H as [y' H].
  unfold accept in H. inversion H; subst. eauto.
Qed.

Lemma channel_rest_captures (y z : string) (c : option string) :
  m channelRest y None accept = Some (z, c) -> exists d, c = Some d.
Proof.
  unfold channelRest. cbn [m].
  match goal with |- context [match ?l with Some _ => None | None => _ end] =>
    destruct l; [discriminate|] end.
  destruct y as [|a y]; [discriminate|].
  destruct (word a); [|discriminate].
  intros H. apply star_through in H. destruct H as [y' H].
  destruct y'; [|discriminate].
  unfold accept in H. inversion H; subst. eauto.
Qed.

Lemma exec_video_captures (x z : string) (c : option string) :
  exec_at videoIdRE x = Some (z, c) -> exists d, c = Some d.
Proof.
  rewrite exec_video.
  repeat match goal with
  | |- context [strip ?p x] => destruct (strip p x)
  | |- context [m videoRest ?y None accept] =>
      let E := fresh "E" in
      destruct (m videoRest y None accept) as [[? ?]|] eqn:E;
      [ intros H; inversion H; subst; eapply video_rest_captures, E | ]
  end; discriminate.
Qed.

Lemma exec_channel_captures (x z : string) (c : option string) :
  exec_at channelNameRE x = Some (z, c) -> exists d, c = Some d.
Proof.
  rewrite exec_channel.
  repeat match goal with
  | |- context [strip ?p x] => destruct (strip p x)
  | |- context [m channelRest ?y None accept] =>
      let E := fresh "E" in
      destruct (m channelRest y None accept) as [[? ?]|] eqn:E;
      [ intros H; inversion H; subst; eapply channel_rest_captures, E | ]
  end; discriminate.
Qed.

Lemma js_match_captures (r : regex) (x : string) (g : option string) :
  (forall x' z c, exec_at r x' = Some (z, c) -> exists d, c = Some d) ->
  js_match r x = Some g -> exists d, g = Some d.
Proof.
  intros Hr. induction x as [|a x IH]; simpl.
  - destruct (exec_at r EmptyString) as [[z c]|] eqn:E; [|discriminate].
    intros H. inversion H; subst. eapply Hr, E.
  - destruct (exec_at r (String a x)) as [[z c]|] eqn:E; [|exact IH].
    intros H. inversion H; subst. eapply Hr, E.
Qed.

End MatcherFacts.

(** * resolveTwitchSource *)

(** C5. For every input, [resolveTwitchSource] returns at most one
    identifier. When the video pattern matches, the result has a [videoId]
    and no [channel], whether or not the channel pattern matches as well;
    otherwise, when the channel pattern matches, the result has a [channel]
    and no [videoId]; otherwise it has neither. *)
Theorem resolveTwitchSource_one_identifier (src : string) :
  (channel (resolveTwitchSource src) = None
   \/ videoId (resolveTwitchSource src) = None)
  /\ match js_match videoIdRE src, js_match channelNameRE src with
     | Some g, _ =>
         exists d, g = Some d
           /\ resolveTwitchSource src = {| channel := None; videoId := Some d |}
     | None, Some g =>
         exists c, g = Some c
           /\ resolveTwitchSource src = {| channel := Some c; videoId := None |}
     | None, None =>
         resolveTwitchSource src = {| channel := None; videoId := None |}
     end.
Proof.
  unfold resolveTwitchSource.
  destruct (js_match videoIdRE src) as [g|] eqn:Ev.
  - split; [left; reflexivity|].
    destruct (js_match_captures _ _ _ exec_video_captures Ev) as [d ->]. eauto.
  - destruct (js_match channelNameRE src) as [g|] eqn:Ec.
    + split; [right; reflexivity|].
      destruct (js_match_captures _ _ _ exec_channel_captures Ec) as [c ->]. eauto.
    + split; [left|]; reflexivity.
Qed.

(** C6, as amended. For every non-empty name [n] made of word characters
    that does not start with [video], [resolveTwitchSource] returns
    [channel = n] and no [videoId] for the three channel shapes. The names
    [video] and [videos] are excluded: they give neither identifier. *)
Theorem resolveTwitchSource_channel (n : string) :
  n <> EmptyString -> all_in word n = true -> starts_with "video" n = false ->
  (resolveTwitchSource ("https://www.twitch.tv/" +:+ n)
   = {| channel := Some n; videoId := None |}
   /\ resolveTwitchSource ("https://player.twitch.tv/?channel=" +:+ n)
      = {| channel := Some n; videoId := None |}
   /\ resolveTwitchSource ("twitch/" +:+ n)
      = {| channel := Some n; videoId := None |})
  /\ (forall v, v = "video" \/ v = "videos" ->
      resolveTwitchSource ("https://www.twitch.tv/" +:+ v)
      = {| channel := None; videoId := None |}
      /\ resolveTwitchSource ("https://player.twitch.tv/?channel=" +:+ v)
         = {| channel := None; videoId := None |}
      /\ resolveTwitchSource ("twitch/" +:+ v)
         = {| channel := None; videoId := None |}).
Proof.
  intros Hne Hw Hv.
  destruct (channel_of_name n Hne Hw Hv) as (V1 & C1 & V2 & C2 & V3 & C3).
  split.
  - unfold resolveTwitchSource. rewrite V1, C1, V2, C2, V3, C3. auto.
  - intros v [-> | ->]; repeat split; reflexivity.
Qed.

Lemma resolveTwitchSource_channel_witness :
  resolveTwitchSource ("https://www.twitch.tv/" +:+ "example")
  = {| channel := Some "example"; videoId := None |}.
Proof.
  apply (resolveTwitchSource_channel "example"); [discriminate | reflexivity | reflexivity].
Defined.

(** C6 as first stated fails: [video] is made of word characters, and no
    channel comes back for it. *)
Lemma resolveTwitchSource_channel_video_excluded :
  all_in word "video" = true
  /\ resolveTwitchSource ("https://www.twitch.tv/" +:+ "video")
     <> {| channel := Some "video"; videoId := None |}.
Proof. split; [reflexivity | discriminate]. Qed.

(** C7. For every non-empty digit string [d], [resolveTwitchSource] returns
    [videoId = d] and no [channel] for the three video shapes, and
    [https://www.twitch.tv/videos] without an ID gives neither. *)
Theorem resolveTwitchSource_videoId (d : string) :
  d <> EmptyString -> all_in digit d = true ->
  resolveTwitchSource ("https://www.twitch.tv/videos/" +:+ d)
  = {| channel := None; videoId := Some d |}
  /\ resolveTwitchSource ("https://player.twitch.tv/?video=" +:+ d)
     = {| channel := None; videoId := Some d |}
  /\ resolveTwitchSource ("twitch/video/" +:+ d)
     = {| channel := None; videoId := Some d |}
  /\ resolveTwitchSource "https://www.twitch.tv/videos"
     = {| channel := None; videoId := None |}.
Proof.
  intros Hne Hd.
  destruct (video_of_digits d Hne Hd) as (V1 & V2 & V3).
  unfold resolveTwitchSource. rewrite V1, V2, V3.
  repeat split; reflexivity.
Qed.

Lemma resolveTwitchSource_videoId_witness :
  resolveTwitchSource ("https://www.twitch.tv/videos/" +:+ "123456789")
  = {| channel := None; videoId := Some "123456789" |}.
Proof.
  apply (resolveTwitchSource_videoId "123456789"); [discriminate | reflexivity].
Defined.

(** * twitchQualityToVideoQuality *)

(** C8. The adapter copies [name] to [id], [width], [height] and [bitrate]
    unchanged, [codecs] to [codec], and sets [selected] exactly when the
    active quality is given and equals the name. *)
Theorem twitchQualityToVideoQuality_fields (number : Type)
    (q : TwitchQuality.t number) (a : option string) :
  let v := twitchQualityToVideoQuality q a in
  VideoQuality.id v = TwitchQuality.name q
  /\ VideoQuality.width v = TwitchQuality.width q
  /\ VideoQuality.height v = TwitchQuality.height q
  /\ VideoQuality.bitrate v = TwitchQuality.bitrate q
  /\ VideoQuality.codec v = TwitchQuality.codecs q
  /\ (VideoQuality.selected v = true <-> a = Some (TwitchQuality.name q)).
Proof.
  simpl. repeat split; try reflexivity.
  - destruct a as [a|]; simpl; [|discriminate].
    intros H. apply String.eqb_eq in H. now subst.
  - intros ->. simpl. apply String.eqb_refl.
Qed.

(** * findTwitchPoster *)

Section PosterFacts.

Lemma cacheKey_inj (src src' : string) (b b' : bool) :
  cacheKey src b = cacheKey src' b' -> src = src' /\ b = b'.
Proof.
  unfold cacheKey.
  destruct b, b'; cbv [String.append]; intros H; inversion H; auto.
Qed.

Lemma posterUrl_nonempty (b : bool) (src : string) (sz : size) :
  posterUrl b src sz <> EmptyString.
Proof.
  destruct b; cbv [posterUrl channelUrl videoUrl String.append]; discriminate.
Qed.

Lemma probe_urls (b : bool) (src : string) :
  map (posterUrl b src) sizes
  = if b then
      [ "https://static-cdn.jtvnw.net/previews-ttv/live_user_" +:+ src +:+ "-1920x1080.jpg";
        "https://static-cdn.jtvnw.net/previews-ttv/live_user_" +:+ src +:+ "-1280x720.jpg";
        "https://static-cdn.jtvnw.net/previews-ttv/live_user_" +:+ src +:+ "-640x360.jpg" ]
    else
      [ "https://static-cdn.jtvnw.net/cf_vods/" +:+ src +:+ "/thumb/thumb0-1920x1080.jpg";
        "https://static-cdn.jtvnw.net/cf_vods/" +:+ src +:+ "/thumb/thumb0-1280x720.jpg";
        "https://static-cdn.jtvnw.net/cf_vods/" +:+ src +:+ "/thumb/thumb0-640x360.jpg" ].
Proof.
  destruct b; unfold sizes, posterUrl, channelUrl, videoUrl; cbn [map width height];
    repeat f_equal.
Qed.


Lemma Inv_init : Inv init.
Proof.
  split; simpl.
  - intros p t H. rewrite lookup_nil in H. discriminate.
  - intros k p. rewrite lookup_empty. split; [discriminate|].
    intros (t & H & _). rewrite lookup_nil in H. discriminate.
  - intros k u. rewrite lookup_empty. split; [discriminate|].
    intros (p & t & H & _). rewrite lookup_nil in H. discriminate.
  - intros p t u H. rewrite lookup_nil in H. discriminate.
Qed.

(** An awaited URL is one of the three URLs of the source. *)
Lemma awaited_url (t : task) (url : string) (rest : list size) :
  task_ok t -> frame t = Some (url, rest) ->
  exists sz, url = posterUrl (t_isChannel t) (t_src t) sz.
Proof.
  unfold task_ok. intros H E. rewrite E in H. destruct H as (_ & _ & _ & H).
  assert (I : In url (urls_of t)).
  { rewrite <- H. apply in_or_app. right. left. reflexivity. }
  unfold urls_of in I. apply in_map_iff in I. destruct I as (sz & <- & _). eauto.
Qed.

Lemma awaiting_pending (t : task) :
  task_ok t -> frame t <> None -> inner t = Pending /\ outer t = Pending.
Proof.
  unfold task_ok. destruct (frame t) as [[url rest]|]; [|congruence].
  intros (? & ? & _) _. auto.
Qed.

Lemma settled_frame (t : task) :
  task_ok t -> inner t <> Pending ->
  frame t = None /\ exists v, inner t = Fulfilled v.
Proof.
  unfold task_ok. destruct (frame t) as [[url rest]|].
  - intros (? & _) ?. congruence.
  - intros (_ & [H | [H | H]]) _; split; auto.
    + destruct H as (? & url & ? & _ & _ & _ & H & _). eauto.
    + destruct H as (H & _). eauto.
    + destruct H as (H & _). eauto.
Qed.

(** Two unsettled promises of one key are the same promise. *)
Lemma pending_unique (s : state) (p q : nat) (tp tq : task) :
  Inv s -> tasks s !! p = Some tp -> tasks s !! q = Some tq ->
  t_key tp = t_key tq -> outer tp = Pending -> outer tq = Pending -> p = q.
Proof.
  intros I Hp Hq Hk Op Oq.
  assert (A : pendingFetch s !! t_key tp = Some p).
  { apply (inv_pending s I). eauto. }
  assert (B : pendingFetch s !! t_key tp = Some q).
  { apply (inv_pending s I). exists tq. auto. }
  congruence.
Qed.

(** While a promise awaits a fetch, its key is not cached. *)
Lemma await_uncached (s : state) (p : nat) (t : task) :
  Inv s -> tasks s !! p = Some t -> frame t <> None ->
  posterCache s !! t_key t = None.
Proof.
  intros I Hp Hf.
  destruct (awaiting_pending t (inv_tasks s I p t Hp) Hf) as [Hin Ho].
  destruct (posterCache s !! t_key t) as [u|] eqn:Hc; [|reflexivity].
  pose proof (inv_await s I p t u Hp Ho Hc). congruence.
Qed.

(** The executor of an awaiting promise moves on: the maps stay consistent
    whether it suspends again, gives up, or stores a found URL. *)
Lemma Inv_update (s : state) (p : nat) (t t' : task)
    (cache' : gmap string string) (fetched' : list string) :
  Inv s -> tasks s !! p = Some t -> frame t <> None ->
  t_src t' = t_src t -> t_isChannel t' = t_isChannel t -> outer t' = outer t ->
  task_ok t' ->
  (cache' = posterCache s
   /\ (inner t' = Pending \/ (inner t' = Fulfilled EmptyString /\ frame t' = None)))
  \/ (exists url, cache' = <[t_key t := url]> (posterCache s)
        /\ inner t' = Fulfilled url /\ url <> EmptyString /\ frame t' = None) ->
  Inv {| posterCache := cache'; pendingFetch := pendingFetch s;
         tasks := <[p := t']> (tasks s); fetched := fetched' |}.
Proof.
  intros I Hp Hf Hsrc Hch Hout Hok Hcase.
  assert (Hlt : p < length (tasks s)) by (eapply lookup_lt_Some; eauto).
  assert (Hkey : t_key t' = t_key t) by (unfold t_key; congruence).
  destruct (awaiting_pending t (inv_tasks s I p t Hp) Hf) as [Hin Ho].
  pose proof (await_uncached s p t I Hp Hf) as Hnone.
  split; simpl.
  - intros q tq Hq. apply list_lookup_insert_Some in Hq.
    destruct Hq as [(-> & <- & _) | (Hne & Hq)]; [exact Hok|].
    eapply inv_tasks; eauto.
  - intros k q. rewrite (inv_pending s I k q). split.
    + intros (tq & Hq & Hk & Hoq). destruct (decide (p = q)) as [<- | Hne].
      * exists t'. rewrite list_lookup_insert_eq by exact Hlt.
        assert (tq = t) by congruence. subst tq. repeat split; congruence.
      * exists tq. rewrite list_lookup_insert_ne by exact Hne. auto.
    + intros (tq & Hq & Hk & Hoq). apply list_lookup_insert_Some in Hq.
      destruct Hq as [(-> & <- & _) | (Hne & Hq)].
      * exists t. repeat split; congruence.
      * exists tq. auto.
  - intros k u. destruct Hcase as [(-> & Hin') | (url & -> & Hin' & Hurl & Hfr)].
    + rewrite (inv_cache s I k u). split.
      * intros (q & tq & Hq & Hk & Hiq & Hu).
        assert (Hne : p <> q) by (intros <-; congruence).
        exists q, tq. rewrite list_lookup_insert_ne by exact Hne. auto.
      * intros (q & tq & Hq & Hk & Hiq & Hu). apply list_lookup_insert_Some in Hq.
        destruct Hq as [(-> & <- & _) | (Hne & Hq)]; [|eauto 6].
        destruct Hin' as [Hin' | [Hin' _]]; congruence.
    + rewrite lookup_insert_Some. split.
      * intros [(<- & <-) | (Hne & Hc)].
        -- exists p, t'. rewrite list_lookup_insert_eq by exact Hlt. auto.
        -- apply (inv_cache s I) in Hc. destruct Hc as (q & tq & Hq & Hk & Hiq & Hu).
           assert (Hpq : p <> q) by (intros <-; congruence).
           exists q, tq. rewrite list_lookup_insert_ne by exact Hpq. auto.
      * intros (q & tq & Hq & Hk & Hiq & Hu). apply list_lookup_insert_Some in Hq.
        destruct Hq as [(-> & <- & _) | (Hne & Hq)].
        -- left. split; congruence.
        -- right. assert (Hc : posterCache s !! k = Some u).
           { apply (inv_cache s I). eauto 6. }
           split; [congruence | exact Hc].
  - intros q tq u Hq Hoq Hc. apply list_lookup_insert_Some in Hq.
    destruct Hq as [(<- & <- & _) | (Hne & Hq)].
    + rewrite Hkey in Hc.
      destruct Hcase as [(-> & _) | (url & -> & Hin' & _)]; [congruence|].
      rewrite lookup_insert_eq in Hc. congruence.
    + destruct Hcase as [(-> & _) | (url & -> & _)];
        [eapply inv_await; eauto|].
      rewrite lookup_insert_ne in Hc; [eapply inv_await; eauto|].
      intros Hk. apply Hne. eapply (pending_unique s p q t tq); eauto.
Qed.


Lemma failed_response (url : string) (status : N) :
  (status <? 400)%N = false -> failed (url, Response status) = true.
Proof. unfold failed. simpl. intros H. apply N.ltb_ge in H. now apply N.leb_le. Qed.

Lemma forallb_snoc {A : Type} (f : A -> bool) (l : list A) (x : A) :
  forallb f l = true -> f x = true -> forallb f (l ++ [x]) = true.
Proof. intros Hl Hx. rewrite forallb_app, Hl. simpl. now rewrite Hx. Qed.

Lemma map_fst_snoc (lg : list (string * fetchOutcome)) (url : string)
    (o : fetchOutcome) (more : list string) :
  map fst (lg ++ [(url, o)]) ++ more = map fst lg ++ url :: more.
Proof. rewrite map_app. simpl. now rewrite <- app_assoc. Qed.

(** The four ways an awaiting executor moves on keep the promise in shape. *)
Lemma task_ok_next (t : task) (url : string) (rest : list size)
    (o : fetchOutcome) (s : state) :
  task_ok t -> frame t = Some (url, rest) ->
  task_ok (fst (settle_frame t (log t ++ [(url, o)])
                  (try_catch (after_fetch (t_isChannel t) (t_src t) url rest o)) s)).
Proof.
  unfold task_ok at 1. intros H E. rewrite E in H.
  destruct H as (Hin & Hout & Hlog & Hurls). unfold urls_of in Hurls.
  destruct o as [status|]; simpl.
  - destruct (status <? 400)%N eqn:Hs; simpl.
    + unfold task_ok, urls_of; simpl. split; [auto|]. left.
      exists (log t), url, status.
      repeat split; auto.
      * now apply N.ltb_lt.
      * exists (map (posterUrl (t_isChannel t) (t_src t)) rest).
        rewrite map_fst_snoc. exact Hurls.
    + destruct rest as [|sz rest]; simpl.
      * unfold task_ok, urls_of; simpl. split; [auto|]. right. left.
        repeat split.
        -- apply forallb_snoc; [exact Hlog | now apply failed_response].
        -- rewrite map_app. exact Hurls.
      * unfold task_ok, urls_of; simpl. repeat split; auto.
        -- apply forallb_snoc; [exact Hlog | now apply failed_response].
        -- rewrite map_fst_snoc. exact Hurls.
  - unfold task_ok, urls_of; simpl. split; [auto|]. right. right.
    split; [reflexivity|]. exists (log t), url. repeat split; auto.
    exists (map (posterUrl (t_isChannel t) (t_src t)) rest).
    rewrite map_fst_snoc. exact Hurls.
Qed.

Lemma Inv_fetch_settles (s s' : state) (p : nat) (o : fetchOutcome) :
  Inv s -> fetch_settles p o s = Some s' -> Inv s'.
Proof.
  intros I. unfold fetch_settles.
  destruct (tasks s !! p) as [t|] eqn:Hp; [|discriminate].
  destruct (frame t) as [[url rest]|] eqn:Hf; [|discriminate].
  pose proof (task_ok_next t url rest o s (inv_tasks s I p t Hp) Hf) as Hok.
  destruct (awaited_url t url rest (inv_tasks s I p t Hp) Hf) as [sz Hsz].
  assert (Hne : frame t <> None) by congruence.
  destruct o as [status|]; simpl in *.
  - destruct (status <? 400)%N; simpl in *.
    + intros [= <-]; unfold set_tasks; simpl. eapply Inv_update; eauto. right.
      exists url. repeat split; auto. rewrite Hsz. apply posterUrl_nonempty.
    + destruct rest as [|sz' rest]; simpl in *; intros [= <-]; unfold set_tasks; simpl.
      * eapply Inv_update; eauto.
      * eapply Inv_update; eauto. left. split; [reflexivity|]. left.
        apply (awaiting_pending t); eauto using inv_tasks.
  - intros [= <-]; unfold set_tasks; simpl. eapply Inv_update; eauto.
Qed.

Lemma Inv_run_finally (s s' : state) (p : nat) :
  Inv s -> run_finally p s = Some s' -> Inv s'.
Proof.
  intros I. unfold run_finally.
  destruct (tasks s !! p) as [t|] eqn:Hp; [|discriminate].
  pose proof (inv_tasks s I p t Hp) as Hok.
  assert (Hlt : p < length (tasks s)) by (eapply lookup_lt_Some; eauto).
  destruct (inner t) as [|v|] eqn:Hin; [discriminate| |].
  2:{ destruct (settled_frame t Hok) as (_ & v & Hv); congruence. }
  destruct (outer t) eqn:Hout; try discriminate.
  intros [= <-].
  destruct (settled_frame t Hok) as (Hfr & _); [congruence|].
  set (t' := {| t_src := t_src t; t_isChannel := t_isChannel t; frame := frame t;
                inner := Fulfilled v; outer := catch_empty (Fulfilled v);
                log := log t |}).
  split; simpl.
  - intros q tq Hq. apply list_lookup_insert_Some in Hq.
    destruct Hq as [(-> & <- & _) | (Hne & Hq)]; [|eapply inv_tasks; eauto].
    unfold task_ok in *. simpl. rewrite Hfr in *. rewrite Hin in Hok.
    destruct Hok as [_ Hok]. split; [auto | exact Hok].
  - intros k q. rewrite lookup_delete_Some, (inv_pending s I k q). split.
    + intros (Hk & tq & Hq & Hkq & Hoq).
      assert (Hpq : p <> q) by (intros <-; congruence).
      exists tq. rewrite list_lookup_insert_ne by exact Hpq. auto.
    + intros (tq & Hq & Hk & Hoq). apply list_lookup_insert_Some in Hq.
      destruct Hq as [(-> & <- & _) | (Hne & Hq)]; [discriminate|].
      split; [|eauto].
      intros Hkk. apply Hne. eapply (pending_unique s p q t tq); eauto. congruence.
  - intros k u. rewrite (inv_cache s I k u). split.
    + intros (q & tq & Hq & Hk & Hiq & Hu). destruct (decide (p = q)) as [<- | Hne].
      * exists p, t'. rewrite list_lookup_insert_eq by exact Hlt.
        assert (tq = t) by congruence. subst tq. repeat split; auto. simpl. congruence.
      * exists q, tq. rewrite list_lookup_insert_ne by exact Hne. auto.
    + intros (q & tq & Hq & Hk & Hiq & Hu). apply list_lookup_insert_Some in Hq.
      destruct Hq as [(-> & <- & _) | (Hne & Hq)]; [|eauto 6].
      exists q, t. repeat split; auto. simpl in Hiq. congruence.
  - intros q tq u Hq Hoq Hc. apply list_lookup_insert_Some in Hq.
    destruct Hq as [(-> & <- & _) | (Hne & Hq)].
    + simpl in Hoq. discriminate.
    + eapply inv_await; eauto.
Qed.


(** A call for a key that is neither cached nor pending: the executor
    starts, issues the fetch of the largest size and suspends; the new
    promise is stored in [pendingFetch]. *)
Lemma findTwitchPoster_fresh (src : string) (b : bool) (s : state) :
  posterCache s !! cacheKey src b = None ->
  pendingFetch s !! cacheKey src b = None ->
  findTwitchPoster src b s
  = (Promise (length (tasks s)),
     {| posterCache := posterCache s;
        pendingFetch := <[cacheKey src b := length (tasks s)]> (pendingFetch s);
        tasks := tasks s
                 ++ [ {| t_src := src; t_isChannel := b;
                         frame := Some (posterUrl b src {| width := 1920; height := 1080 |},
                                        [ {| width := 1280; height := 720 |};
                                          {| width := 640; height := 360 |} ]);
                         inner := Pending; outer := Pending; log := [] |} ];
        fetched := fetched s
                   ++ [posterUrl b src {| width := 1920; height := 1080 |}] |}).
Proof. intros Hc Hp. unfold findTwitchPoster. rewrite Hc, Hp. reflexivity. Qed.

Lemma Inv_call (s : state) (src : string) (b : bool) :
  Inv s -> Inv (snd (findTwitchPoster src b s)).
Proof.
  intros I.
  destruct (posterCache s !! cacheKey src b) as [u|] eqn:Hc.
  { unfold findTwitchPoster. rewrite Hc. exact I. }
  destruct (pendingFetch s !! cacheKey src b) as [q|] eqn:Hp.
  { unfold findTwitchPoster. rewrite Hc, Hp. exact I. }
  rewrite (findTwitchPoster_fresh src b s Hc Hp). simpl.
  set (t0 := {| t_src := src; t_isChannel := b;
                frame := Some (posterUrl b src {| width := 1920; height := 1080 |},
                               [ {| width := 1280; height := 720 |};
                                 {| width := 640; height := 360 |} ]);
                inner := Pending; outer := Pending; log := [] |}).
  split; simpl.
  - intros p t Ht. apply lookup_snoc_Some in Ht.
    destruct Ht as [(_ & Ht) | (_ & <-)]; [eapply inv_tasks; eauto|].
    unfold task_ok. simpl. repeat split.
  - intros k p. rewrite lookup_insert_Some. split.
    + intros [(<- & <-) | (Hne & Hk)].
      * exists t0. split; [|split; reflexivity].
        apply lookup_snoc_Some. right. auto.
      * apply (inv_pending s I) in Hk. destruct Hk as (t & Ht & Hk & Ho).
        exists t. split; [|auto]. apply lookup_app_l_Some, Ht.
    + intros (t & Ht & Hk & Ho). apply lookup_snoc_Some in Ht.
      destruct Ht as [(_ & Ht) | (-> & <-)].
      * right. assert (Hk' : pendingFetch s !! k = Some p).
        { apply (inv_pending s I). eauto. }
        split; [congruence | exact Hk'].
      * left. split; [exact Hk | reflexivity].
  - intros k u. rewrite (inv_cache s I k u). split.
    + intros (p & t & Ht & Hk & Hi & Hu).
      exists p, t. split; [|auto]. apply lookup_app_l_Some, Ht.
    + intros (p & t & Ht & Hk & Hi & Hu). apply lookup_snoc_Some in Ht.
      destruct Ht as [(_ & Ht) | (_ & <-)]; [eauto 6 | discriminate].
  - intros p t u Ht Ho Hu. apply lookup_snoc_Some in Ht.
    destruct Ht as [(_ & Ht) | (_ & <-)]; [eapply inv_await; eauto|].
    unfold t_key in Hu. simpl in Hu. congruence.
Qed.

Lemma Inv_step (s s' : state) (e : event) :
  Inv s -> step e s = Some s' -> Inv s'.
Proof.
  intros I. destruct e as [src b | p o | p]; simpl.
  - intros [= <-]. apply Inv_call, I.
  - apply Inv_fetch_settles, I.
  - apply Inv_run_finally, I.
Qed.

Lemma Inv_run (es : list event) (s s' : state) :
  Inv s -> run es s = Some s' -> Inv s'.
Proof.
  revert s. induction es as [|e es IH]; simpl; intros s I.
  - intros [= <-]. exact I.
  - destruct (step e s) as [s1|] eqn:E; [|discriminate].
    apply IH. eapply Inv_step; eauto.
Qed.

Lemma Inv_reached (es : list event) (s : state) :
  run es init = Some s -> Inv s.
Proof. apply Inv_run, Inv_init. Qed.

Lemma run_app (es1 es2 : list event) (s : state) :
  run (es1 ++ es2) s
  = match run es1 s with
    | Some s1 => run es2 s1
    | None => None
    end.
Proof.
  revert s. induction es1 as [|e es1 IH]; simpl; intros s; [reflexivity|].
  destruct (step e s); [apply IH | reflexivity].
Qed.


(** A cached URL stays cached. *)
Lemma cache_step (s s' : state) (e : event) (k u : string) :
  Inv s -> step e s = Some s' ->
  posterCache s !! k = Some u -> posterCache s' !! k = Some u.
Proof.
  intros I Hs Hk. destruct e as [src b | p o | p]; simpl in Hs.
  - injection Hs as <-. unfold findTwitchPoster.
    destruct (posterCache s !! cacheKey src b); [exact Hk|].
    destruct (pendingFetch s !! cacheKey src b); [exact Hk|].
    simpl. exact Hk.
  - unfold fetch_settles in Hs.
    destruct (tasks s !! p) as [t|] eqn:Hp; [|discriminate].
    destruct (frame t) as [[url rest]|] eqn:Hf; [|discriminate].
    assert (Hn : posterCache s !! t_key t = None).
    { eapply await_uncached; eauto. congruence. }
    destruct o as [status|]; simpl in Hs.
    + destruct (status <? 400)%N; simpl in Hs.
      * injection Hs as <-. simpl. rewrite lookup_insert_ne; [exact Hk|congruence].
      * destruct rest; simpl in Hs; injection Hs as <-; exact Hk.
    + injection Hs as <-. exact Hk.
  - unfold run_finally in Hs.
    destruct (tasks s !! p) as [t|]; [|discriminate].
    destruct (inner t), (outer t); try discriminate; injection Hs as <-; exact Hk.
Qed.

Lemma cache_run (es : list event) (s s' : state) (k u : string) :
  Inv s -> run es s = Some s' ->
  posterCache s !! k = Some u -> posterCache s' !! k = Some u.
Proof.
  revert s. induction es as [|e es IH]; simpl; intros s I.
  - intros [= <-]. auto.
  - destruct (step e s) as [s1|] eqn:E; [|discriminate].
    intros Hr Hk. apply (IH s1); [eapply Inv_step; eauto | exact Hr |].
    eapply cache_step; eauto.
Qed.

(** The first entry of a log that did not fail is its last entry. *)
Lemma first_not_failed {A : Type} (f : A -> bool) (l1 l2 l3 : list A) (a b : A) :
  forallb f l1 = true -> f b = false -> l1 ++ [a] = l2 ++ b :: l3 ->
  l2 = l1 /\ b = a /\ l3 = [].
Proof.
  revert l2. induction l1 as [|x l1 IH]; intros l2 Hl Hb E.
  - destruct l2 as [|y l2]; simpl in E.
    + injection E as -> <-. auto.
    + injection E as _ E. destruct l2; discriminate.
  - simpl in Hl. apply andb_prop in Hl. destruct Hl as [Hx Hl].
    destruct l2 as [|y l2]; simpl in E.
    + injection E as -> _. congruence.
    + injection E as -> E. destruct (IH l2 Hl Hb E) as (-> & -> & ->). auto.
Qed.

Lemma not_failed_success (u : string) (status : N) :
  (status < 400)%N -> failed (u, Response status) = false.
Proof. intros H. unfold failed. simpl. apply N.leb_gt, H. Qed.

Lemma all_failed_no_success (lg l2 l3 : list (string * fetchOutcome))
    (u : string) (status : N) :
  forallb failed lg = true -> (status < 400)%N ->
  lg = l2 ++ (u, Response status) :: l3 -> False.
Proof.
  intros Hl Hs ->. rewrite forallb_app in Hl. simpl in Hl.
  rewrite (not_failed_success u status Hs) in Hl.
  rewrite andb_false_r in Hl. discriminate.
Qed.

End PosterFacts.

Section StepFacts.

(** The state after the awaited fetch of [p] has ended. *)
Lemma fetch_settles_at (s : state) (p : nat) (t : task) (url : string)
    (rest : list size) (o : fetchOutcome) :
  tasks s !! p = Some t -> frame t = Some (url, rest) ->
  let r := settle_frame t (log t ++ [(url, o)])
             (try_catch (after_fetch (t_isChannel t) (t_src t) url rest o)) s in
  exists s',
    fetch_settles p o s = Some s'
    /\ tasks s' !! p = Some (fst r)
    /\ pendingFetch s' = pendingFetch s
    /\ posterCache s' = posterCache (snd r)
    /\ fetched s' = fetched (snd r).
Proof.
  intros Hp Hf r. unfold fetch_settles. rewrite Hp, Hf. fold r.
  assert (Hlt : p < length (tasks s)) by (eapply lookup_lt_Some; eauto).
  assert (Ht : tasks (snd r) = tasks s /\ pendingFetch (snd r) = pendingFetch s).
  { unfold r, settle_frame. destruct (try_catch _); simpl; auto. }
  destruct Ht as [Ht Hpf].
  destruct r as [t' s1]. simpl in *. eexists. split; [reflexivity|].
  unfold set_tasks. simpl. rewrite Ht.
  rewrite list_lookup_insert_eq by exact Hlt. auto.
Qed.

Lemma run_finally_at (s : state) (p : nat) (t : task) (v : string) :
  tasks s !! p = Some t -> inner t = Fulfilled v -> outer t = Pending ->
  exists s' t',
    run_finally p s = Some s'
    /\ tasks s' !! p = Some t'
    /\ outer t' = Fulfilled v /\ inner t' = Fulfilled v
    /\ t_src t' = t_src t /\ t_isChannel t' = t_isChannel t
    /\ pendingFetch s' = delete (t_key t) (pendingFetch s)
    /\ posterCache s' = posterCache s /\ fetched s' = fetched s.
Proof.
  intros Hp Hin Hout. unfold run_finally. rewrite Hp, Hin, Hout.
  assert (Hlt : p < length (tasks s)) by (eapply lookup_lt_Some; eauto).
  eexists _, _. split; [reflexivity|]. simpl.
  rewrite list_lookup_insert_eq by exact Hlt. repeat split.
Qed.

End StepFacts.

Section JobFacts.

Lemma FInv_init : FInv finit.
Proof.
  split; simpl.
  - intros p t H. rewrite lookup_nil in H. discriminate.
  - intros k p. rewrite lookup_empty. split; [discriminate|].
    intros (t & H & _). rewrite lookup_nil in H. discriminate.
  - intros k u. rewrite lookup_empty. split; [discriminate|].
    intros (p & t & H & _). rewrite lookup_nil in H. discriminate.
  - intros p t u H. rewrite lookup_nil in H. discriminate.
  - intros p H. apply not_elem_of_empty in H. contradiction.
  - intros p t H. rewrite lookup_nil in H. discriminate.
Qed.

(** Two promises of one key whose callbacks have not run are the same. *)
Lemma uncleaned_unique (fs : fstate) (p q : nat) (tp tq : task) :
  FInv fs ->
  tasks (base fs) !! p = Some tp -> tasks (base fs) !! q = Some tq ->
  t_key tp = t_key tq -> p ∉ cleaned fs -> q ∉ cleaned fs -> p = q.
Proof.
  intros I Hp Hq Hk Cp Cq.
  assert (A : pendingFetch (base fs) !! t_key tp = Some p).
  { apply (f_pending fs I). eauto. }
  assert (B : pendingFetch (base fs) !! t_key tp = Some q).
  { apply (f_pending fs I). exists tq. auto. }
  congruence.
Qed.

(** The callback of a promise runs only after its executor has returned. *)
Lemma awaiting_uncleaned (fs : fstate) (p : nat) (t : task) :
  FInv fs -> tasks (base fs) !! p = Some t -> frame t <> None ->
  p ∉ cleaned fs.
Proof.
  intros I Hp Hf Hc. destruct (f_cleaned fs I p Hc) as (t' & Ht' & Hn).
  congruence.
Qed.

Lemma job_await_uncached (fs : fstate) (p : nat) (t : task) :
  FInv fs -> tasks (base fs) !! p = Some t -> frame t <> None ->
  posterCache (base fs) !! t_key t = None.
Proof.
  intros I Hp Hf.
  destruct (awaiting_pending t (f_tasks fs I p t Hp) Hf) as [Hin _].
  destruct (posterCache (base fs) !! t_key t) as [u|] eqn:Hc; [|reflexivity].
  pose proof (f_await fs I p t u Hp (awaiting_uncleaned fs p t I Hp Hf) Hc).
  congruence.
Qed.

Lemma FInv_update (fs : fstate) (p : nat) (t t' : task)
    (cache' : gmap string string) (fetched' : list string) :
  FInv fs -> tasks (base fs) !! p = Some t -> frame t <> None ->
  t_src t' = t_src t -> t_isChannel t' = t_isChannel t -> outer t' = outer t ->
  task_ok t' ->
  (cache' = posterCache (base fs)
   /\ (inner t' = Pending \/ (inner t' = Fulfilled EmptyString /\ frame t' = None)))
  \/ (exists url, cache' = <[t_key t := url]> (posterCache (base fs))
        /\ inner t' = Fulfilled url /\ url <> EmptyString /\ frame t' = None) ->
  FInv {| base := {| posterCache := cache';
                     pendingFetch := pendingFetch (base fs);
                     tasks := <[p := t']> (tasks (base fs));
                     fetched := fetched' |};
          cleaned := cleaned fs |}.
Proof.
  intros I Hp Hf Hsrc Hch Hout Hok Hcase.
  assert (Hlt : p < length (tasks (base fs))) by (eapply lookup_lt_Some; eauto).
  assert (Hkey : t_key t' = t_key t) by (unfold t_key; congruence).
  destruct (awaiting_pending t (f_tasks fs I p t Hp) Hf) as [Hin Ho].
  pose proof (job_await_uncached fs p t I Hp Hf) as Hnone.
  pose proof (awaiting_uncleaned fs p t I Hp Hf) as Hcl.
  split; simpl.
  - intros q tq Hq. apply list_lookup_insert_Some in Hq.
    destruct Hq as [(-> & <- & _) | (Hne & Hq)]; [exact Hok|].
    eapply f_tasks; eauto.
  - intros k q. rewrite (f_pending fs I k q). split.
    + intros (tq & Hq & Hk & Hcq). destruct (decide (p = q)) as [<- | Hne].
      * exists t'. rewrite list_lookup_insert_eq by exact Hlt.
        assert (tq = t) by congruence. subst tq. repeat split; congruence.
      * exists tq. rewrite list_lookup_insert_ne by exact Hne. auto.
    + intros (tq & Hq & Hk & Hcq). apply list_lookup_insert_Some in Hq.
      destruct Hq as [(-> & <- & _) | (Hne & Hq)].
      * exists t. repeat split; congruence.
      * exists tq. auto.
  - intros k u. destruct Hcase as [(-> & Hin') | (url & -> & Hin' & Hurl & Hfr)].
    + rewrite (f_cache fs I k u). split.
      * intros (q & tq & Hq & Hk & Hiq & Hu).
        assert (Hne : p <> q) by (intros <-; congruence).
        exists q, tq. rewrite list_lookup_insert_ne by exact Hne. auto.
      * intros (q & tq & Hq & Hk & Hiq & Hu). apply list_lookup_insert_Some in Hq.
        destruct Hq as [(-> & <- & _) | (Hne & Hq)]; [|eauto 6].
        destruct Hin' as [Hin' | [Hin' _]]; congruence.
    + rewrite lookup_insert_Some. split.
      * intros [(<- & <-) | (Hne & Hc)].
        -- exists p, t'. rewrite list_lookup_insert_eq by exact Hlt. auto.
        -- apply (f_cache fs I) in Hc. destruct Hc as (q & tq & Hq & Hk & Hiq & Hu).
           assert (Hpq : p <> q) by (intros <-; congruence).
           exists q, tq. rewrite list_lookup_insert_ne by exact Hpq. auto.
      * intros (q & tq & Hq & Hk & Hiq & Hu). apply list_lookup_insert_Some in Hq.
        destruct Hq as [(-> & <- & _) | (Hne & Hq)].
        -- left. split; congruence.
        -- right. assert (Hc : posterCache (base fs) !! k = Some u).
           { apply (f_cache fs I). eauto 6. }
           split; [congruence | exact Hc].
  - intros q tq u Hq Hcq Hc. apply list_lookup_insert_Some in Hq.
    destruct Hq as [(<- & <- & _) | (Hne & Hq)].
    + rewrite Hkey in Hc.
      destruct Hcase as [(-> & _) | (url & -> & Hin' & _)]; [congruence|].
      rewrite lookup_insert_eq in Hc. congruence.
    + destruct Hcase as [(-> & _) | (url & -> & _)];
        [eapply f_await; eauto|].
      rewrite lookup_insert_ne in Hc; [eapply f_await; eauto|].
      intros Hk. apply Hne. eapply (uncleaned_unique fs p q t tq); eauto.
  - intros q Hq. destruct (f_cleaned fs I q Hq) as (tq & Htq & Hfq).
    assert (Hne : p <> q) by (intros <-; contradiction).
    exists tq. rewrite list_lookup_insert_ne by exact Hne. auto.
  - intros q tq Hq Hoq. apply list_lookup_insert_Some in Hq.
    destruct Hq as [(<- & <- & _) | (Hne & Hq)]; [congruence|].
    eapply f_outer; eauto.
Qed.

Lemma FInv_fetch (fs : fstate) (s' : state) (p : nat) (o : fetchOutcome) :
  FInv fs -> fetch_settles p o (base fs) = Some s' ->
  FInv {| base := s'; cleaned := cleaned fs |}.
Proof.
  intros I. unfold fetch_settles.
  destruct (tasks (base fs) !! p) as [t|] eqn:Hp; [|discriminate].
  destruct (frame t) as [[url rest]|] eqn:Hf; [|discriminate].
  pose proof (task_ok_next t url rest o (base fs) (f_tasks fs I p t Hp) Hf) as Hok.
  destruct (awaited_url t url rest (f_tasks fs I p t Hp) Hf) as [sz Hsz].
  assert (Hne : frame t <> None) by congruence.
  destruct o as [status|]; simpl in *.
  - destruct (status <? 400)%N; simpl in *.
    + intros [= <-]; unfold set_tasks; simpl. eapply FInv_update; eauto. right.
      exists url. repeat split; auto. rewrite Hsz. apply posterUrl_nonempty.
    + destruct rest as [|sz' rest]; simpl in *; intros [= <-]; unfold set_tasks; simpl.
      * eapply FInv_update; eauto.
      * eapply FInv_update; eauto. left. split; [reflexivity|]. left.
        apply (awaiting_pending t); eauto using f_tasks.
  - intros [= <-]; unfold set_tasks; simpl. eapply FInv_update; eauto.
Qed.

Lemma FInv_call (fs : fstate) (src : string) (b : bool) :
  FInv fs ->
  FInv {| base := snd (findTwitchPoster src b (base fs)); cleaned := cleaned fs |}.
Proof.
  destruct fs as [s c]. intros I. simpl.
  pose proof (f_tasks _ I) as It. pose proof (f_pending _ I) as Ip.
  pose proof (f_cache _ I) as Ic. pose proof (f_await _ I) as Ia.
  pose proof (f_cleaned _ I) as Icl. pose proof (f_outer _ I) as Io.
  simpl in It, Ip, Ic, Ia, Icl, Io.
  destruct (posterCache s !! cacheKey src b) as [u|] eqn:Hc.
  { unfold findTwitchPoster. rewrite Hc. exact I. }
  destruct (pendingFetch s !! cacheKey src b) as [q|] eqn:Hp.
  { unfold findTwitchPoster. rewrite Hc, Hp. exact I. }
  rewrite (findTwitchPoster_fresh src b s Hc Hp). simpl.
  set (t0 := {| t_src := src; t_isChannel := b;
                frame := Some (posterUrl b src {| width := 1920; height := 1080 |},
                               [ {| width := 1280; height := 720 |};
                                 {| width := 640; height := 360 |} ]);
                inner := Pending; outer := Pending; log := [] |}).
  assert (Hfresh : length (tasks s) ∉ c).
  { intros Hin. destruct (Icl _ Hin) as (t & Ht & _).
    apply lookup_lt_Some in Ht. lia. }
  split; simpl.
  - intros p t Ht. apply lookup_snoc_Some in Ht.
    destruct Ht as [(_ & Ht) | (_ & <-)]; [eapply It; eauto|].
    unfold task_ok. simpl. repeat split.
  - intros k p. rewrite lookup_insert_Some. split.
    + intros [(<- & <-) | (Hne & Hk)].
      * exists t0. split; [|split; [reflexivity | exact Hfresh]].
        apply lookup_snoc_Some. right. auto.
      * apply Ip in Hk. destruct Hk as (t & Ht & Hk & Ho).
        exists t. split; [|auto]. apply lookup_app_l_Some, Ht.
    + intros (t & Ht & Hk & Ho). apply lookup_snoc_Some in Ht.
      destruct Ht as [(_ & Ht) | (-> & <-)].
      * right. assert (Hk' : pendingFetch s !! k = Some p).
        { apply Ip. eauto. }
        split; [congruence | exact Hk'].
      * left. split; [exact Hk | reflexivity].
  - intros k u. rewrite (Ic k u). split.
    + intros (p & t & Ht & Hk & Hi & Hu).
      exists p, t. split; [|auto]. apply lookup_app_l_Some, Ht.
    + intros (p & t & Ht & Hk & Hi & Hu). apply lookup_snoc_Some in Ht.
      destruct Ht as [(_ & Ht) | (_ & <-)]; [eauto 6 | discriminate].
  - intros p t u Ht Ho Hu. apply lookup_snoc_Some in Ht.
    destruct Ht as [(_ & Ht) | (_ & <-)]; [eapply Ia; eauto|].
    unfold t_key in Hu. simpl in Hu. congruence.
  - intros p Hp'. destruct (Icl p Hp') as (t & Ht & Hf).
    exists t. split; [|exact Hf]. apply lookup_app_l_Some, Ht.
  - intros p t Ht Ho. apply lookup_snoc_Some in Ht.
    destruct Ht as [(_ & Ht) | (_ & <-)]; [eapply Io; eauto|].
    simpl in Ho. congruence.
Qed.

Lemma FInv_callback (fs fs' : fstate) (p : nat) :
  FInv fs -> run_callback p fs = Some fs' -> FInv fs'.
Proof.
  intros I. unfold run_callback.
  destruct (tasks (base fs) !! p) as [t|] eqn:Hp; [|discriminate].
  pose proof (f_tasks fs I p t Hp) as Hok.
  assert (G : inner t <> Pending -> p ∉ cleaned fs ->
              FInv {| base := {| posterCache := posterCache (base fs);
                                 pendingFetch := delete (t_key t) (pendingFetch (base fs));
                                 tasks := tasks (base fs);
                                 fetched := fetched (base fs) |};
                      cleaned := {[p]} ∪ cleaned fs |}).
  { intros Hin Hcl. destruct (settled_frame t Hok Hin) as (Hfr & _).
    split; simpl.
    - apply (f_tasks fs I).
    - intros k q. rewrite lookup_delete_Some, (f_pending fs I k q). split.
      + intros (Hk & tq & Hq & Hkq & Hcq). exists tq. split; [exact Hq|].
        split; [exact Hkq|]. intros Hin'. apply elem_of_union in Hin'.
        destruct Hin' as [Hin' | Hin']; [|contradiction].
        apply elem_of_singleton in Hin'. subst q. congruence.
      + intros (tq & Hq & Hk & Hcq).
        assert (Hqp : q <> p) by (intros ->; apply Hcq; set_solver).
        assert (Hcq' : q ∉ cleaned fs) by set_solver.
        split; [|eauto].
        intros Hkk. apply Hqp. symmetry.
        eapply (uncleaned_unique fs p q t tq); eauto. congruence.
    - apply (f_cache fs I).
    - intros q tq u Hq Hcq Hc.
      assert (Hcq' : q ∉ cleaned fs) by set_solver.
      eapply (f_await fs I); eauto.
    - intros q Hq. apply elem_of_union in Hq. destruct Hq as [Hq | Hq].
      + apply elem_of_singleton in Hq. subst q. eauto.
      + apply (f_cleaned fs I), Hq.
    - intros q tq Hq Ho. apply elem_of_union. right.
      eapply (f_outer fs I); eauto. }
  destruct (inner t) eqn:Hin; [discriminate| |];
    (destruct (decide (p ∈ cleaned fs)); [discriminate|]);
    intros [= <-]; apply G; auto; discriminate.
Qed.

Lemma FInv_settle (fs fs' : fstate) (p : nat) :
  FInv fs -> settle_returned p fs = Some fs' -> FInv fs'.
Proof.
  intros I. unfold settle_returned.
  destruct (tasks (base fs) !! p) as [t|] eqn:Hp; [|discriminate].
  destruct (decide (p ∈ cleaned fs)) as [Hcl|]; [|discriminate].
  destruct (outer t) eqn:Hout; try discriminate.
  intros [= <-].
  pose proof (f_tasks fs I p t Hp) as Hok.
  assert (Hlt : p < length (tasks (base fs))) by (eapply lookup_lt_Some; eauto).
  destruct (f_cleaned fs I p Hcl) as (t0 & Ht0 & Hfr).
  assert (t0 = t) by congruence. subst t0.
  assert (Hv : exists v, inner t = Fulfilled v).
  { unfold task_ok in Hok. rewrite Hfr in Hok. destruct Hok as (_ & [H | [H | H]]).
    - destruct H as (? & url & ? & _ & _ & _ & H & _). eauto.
    - destruct H as (H & _). eauto.
    - destruct H as (H & _). eauto. }
  destruct Hv as [v Hv].
  set (t' := {| t_src := t_src t; t_isChannel := t_isChannel t; frame := frame t;
                inner := inner t; outer := catch_empty (inner t); log := log t |}).
  unfold set_tasks. split; simpl.
  - intros q tq Hq. apply list_lookup_insert_Some in Hq.
    destruct Hq as [(-> & <- & _) | (Hne & Hq)]; [|eapply (f_tasks fs I); eauto].
    unfold task_ok in *. simpl. rewrite Hfr in *. rewrite Hv. simpl.
    destruct Hok as [_ Hok]. rewrite Hv in Hok. split; [auto | exact Hok].
  - intros k q. rewrite (f_pending fs I k q). split.
    + intros (tq & Hq & Hk & Hcq).
      assert (Hne : p <> q) by (intros <-; contradiction).
      exists tq. rewrite list_lookup_insert_ne by exact Hne. auto.
    + intros (tq & Hq & Hk & Hcq). apply list_lookup_insert_Some in Hq.
      destruct Hq as [(-> & <- & _) | (Hne & Hq)]; [contradiction | eauto].
  - intros k u. rewrite (f_cache fs I k u). split.
    + intros (q & tq & Hq & Hk & Hiq & Hu). destruct (decide (p = q)) as [<- | Hne].
      * exists p, t'. rewrite list_lookup_insert_eq by exact Hlt.
        assert (tq = t) by congruence. subst tq. auto.
      * exists q, tq. rewrite list_lookup_insert_ne by exact Hne. auto.
    + intros (q & tq & Hq & Hk & Hiq & Hu). apply list_lookup_insert_Some in Hq.
      destruct Hq as [(-> & <- & _) | (Hne & Hq)]; [|eauto 6].
      exists q, t. auto.
  - intros q tq u Hq Hcq Hc. apply list_lookup_insert_Some in Hq.
    destruct Hq as [(-> & <- & _) | (Hne & Hq)]; [contradiction|].
    eapply (f_await fs I); eauto.
  - intros q Hq. destruct (f_cleaned fs I q Hq) as (tq & Htq & Hfq).
    destruct (decide (p = q)) as [<- | Hne].
    + exists t'. rewrite list_lookup_insert_eq by exact Hlt. split; [reflexivity|].
      simpl. congruence.
    + exists tq. rewrite list_lookup_insert_ne by exact Hne. auto.
  - intros q tq Hq Ho. apply list_lookup_insert_Some in Hq.
    destruct Hq as [(-> & <- & _) | (Hne & Hq)]; [exact Hcl|].
    eapply (f_outer fs I); eauto.
Qed.

Lemma FInv_step (fs fs' : fstate) (j : job) :
  FInv fs -> fstep j fs = Some fs' -> FInv fs'.
Proof.
  intros I. destruct j as [src b | p o | p | p]; simpl.
  - unfold on_base. intros [= <-]. apply FInv_call, I.
  - unfold on_base. destruct (fetch_settles p o (base fs)) as [s'|] eqn:E;
      [|discriminate].
    intros [= <-]. eapply FInv_fetch; eauto.
  - apply FInv_callback, I.
  - apply FInv_settle, I.
Qed.

Lemma FInv_run (js : list job) (fs fs' : fstate) :
  FInv fs -> frun js fs = Some fs' -> FInv fs'.
Proof.
  revert fs. induction js as [|j js IH]; simpl; intros fs I.
  - intros [= <-]. exact I.
  - destruct (fstep j fs) as [fs1|] eqn:E; [|discriminate].
    apply IH. eapply FInv_step; eauto.
Qed.

Lemma FInv_reached (js : list job) (fs : fstate) :
  frun js finit = Some fs -> FInv fs.
Proof. apply FInv_run, FInv_init. Qed.

End JobFacts.

Section CoverFacts.

Lemma frun_app (js1 js2 : list job) (fs : fstate) :
  frun (js1 ++ js2) fs
  = match frun js1 fs with
    | Some fs1 => frun js2 fs1
    | None => None
    end.
Proof.
  revert fs. induction js1 as [|j js1 IH]; simpl; intros fs; [reflexivity|].
  destruct (fstep j fs); [apply IH | reflexivity].
Qed.

(** A fetch completion replaces one promise and keeps whose it is. *)
Lemma fetch_settles_tasks (s s' : state) (p : nat) (o : fetchOutcome) :
  fetch_settles p o s = Some s' ->
  exists t t',
    tasks s !! p = Some t /\ frame t <> None
    /\ tasks s' = <[p := t']> (tasks s)
    /\ t_src t' = t_src t /\ t_isChannel t' = t_isChannel t
    /\ outer t' = outer t.
Proof.
  unfold fetch_settles.
  destruct (tasks s !! p) as [t|] eqn:Hp; [|discriminate].
  destruct (frame t) as [[url rest]|] eqn:Hf; [|discriminate].
  intros H. exists t.
  destruct o as [status|]; simpl in H.
  - destruct (status <? 400)%N; simpl in H.
    + injection H as <-. eexists. simpl. repeat split. congruence.
    + destruct rest; simpl in H; injection H as <-; eexists; simpl;
        repeat split; congruence.
  - injection H as <-. eexists. simpl. repeat split. congruence.
Qed.

(** The coarser machine is the job machine on the schedules in which the
    settlement of a returned promise follows its callback at once. *)
Lemma jobs_cover_step (s s' : state) (fs : fstate) (e : event) :
  FInv fs -> base fs = s ->
  (forall p t, tasks s !! p = Some t -> (p ∈ cleaned fs <-> outer t <> Pending)) ->
  step e s = Some s' ->
  exists fs',
    frun (jobs_of e) fs = Some fs' /\ base fs' = s'
    /\ (forall p t, tasks s' !! p = Some t ->
        (p ∈ cleaned fs' <-> outer t <> Pending)).
Proof.
  intros I <- Hc Hs. destruct fs as [s c]. simpl in *.
  destruct e as [src b | p o | p]; simpl in Hs; simpl.
  - injection Hs as <-. unfold on_base. simpl. eexists. split; [reflexivity|].
    simpl. split; [reflexivity|]. unfold findTwitchPoster.
    destruct (posterCache s !! cacheKey src b); [exact Hc|].
    destruct (pendingFetch s !! cacheKey src b); [exact Hc|].
    simpl. intros p t Ht. apply lookup_snoc_Some in Ht.
    destruct Ht as [(_ & Ht) | (-> & <-)]; [auto|]. simpl. split; [|congruence].
    intros Hin. destruct (f_cleaned _ I _ Hin) as (t & Ht & _). simpl in Ht.
    apply lookup_lt_Some in Ht. lia.
  - unfold on_base. simpl. rewrite Hs. eexists. split; [reflexivity|].
    simpl. split; [reflexivity|].
    destruct (fetch_settles_tasks s s' p o Hs)
      as (t & t' & Hp & _ & -> & _ & _ & Ho).
    intros q tq Hq. apply list_lookup_insert_Some in Hq.
    destruct Hq as [(<- & <- & _) | (Hne & Hq)]; [|auto].
    rewrite Ho. auto.
  - unfold run_finally in Hs. unfold run_callback, settle_returned. simpl.
    destruct (tasks s !! p) as [t|] eqn:Hp; [|discriminate].
    assert (Hlt : p < length (tasks s)) by (eapply lookup_lt_Some; eauto).
    destruct (inner t) eqn:Hin; [discriminate| |];
      (destruct (outer t) eqn:Ho; try discriminate);
      injection Hs as <-;
      (destruct (decide (p ∈ c)) as [Hin'|_];
        [pose proof (proj1 (Hc p t Hp) Hin'); congruence|]);
      simpl; rewrite Hp, Ho;
      (destruct (decide (p ∈ {[p]} ∪ c)) as [_|Hn];
        [|exfalso; apply Hn, elem_of_union_l, elem_of_singleton; reflexivity]);
      unfold set_tasks; simpl; rewrite ?Hin;
      (eexists; split; [reflexivity|]); simpl; (split; [reflexivity|]);
      intros q tq Hq; apply list_lookup_insert_Some in Hq;
      (destruct Hq as [(<- & <- & _) | (Hne & Hq)];
        [simpl; split; [intros _; discriminate | intros _; apply elem_of_union_l, elem_of_singleton; reflexivity]
        | rewrite elem_of_union, elem_of_singleton, <- (Hc q tq Hq);
          split; [intros [? | ?]; [congruence | assumption] | auto]]).
Qed.

Lemma jobs_cover_events (es : list event) (s : state) :
  run es init = Some s ->
  exists fs, frun (concat (map jobs_of es)) finit = Some fs /\ base fs = s.
Proof.
  assert (G : forall es s0 fs0 s,
            FInv fs0 -> base fs0 = s0 ->
            (forall p t, tasks s0 !! p = Some t ->
                         (p ∈ cleaned fs0 <-> outer t <> Pending)) ->
            run es s0 = Some s ->
            exists fs, frun (concat (map jobs_of es)) fs0 = Some fs
                       /\ base fs = s).
  { clear. induction es as [|e es IH]; simpl; intros s0 fs0 s I Hb Hc Hr.
    - injection Hr as <-. eauto.
    - destruct (step e s0) as [s1|] eqn:E; [|discriminate].
      destruct (jobs_cover_step s0 s1 fs0 e I Hb Hc E) as (fs1 & Hf & Hb1 & Hc1).
      destruct (IH s1 fs1 s (FInv_run _ _ _ I Hf) Hb1 Hc1 Hr) as (fs & Hf' & Hb').
      exists fs. rewrite frun_app, Hf. auto. }
  intros Hr. apply (G es init finit s FInv_init eq_refl); [|exact Hr].
  intros p t H. simpl in H. rewrite lookup_nil in H. discriminate.
Qed.

End CoverFacts.

Section SequenceFacts.

(** The awaited fetch of [p] ends with a success. *)
Lemma fetch_success_at (s : state) (p : nat) (t : task) (url : string)
    (rest : list size) (status : N) :
  tasks s !! p = Some t -> frame t = Some (url, rest) -> (status < 400)%N ->
  exists s' t',
    fetch_settles p (Response status) s = Some s'
    /\ tasks s' !! p = Some t'
    /\ frame t' = None /\ inner t' = Fulfilled url /\ outer t' = outer t
    /\ log t' = log t ++ [(url, Response status)]
    /\ fetched s' = fetched s
    /\ posterCache s' = <[t_key t := url]> (posterCache s).
Proof.
  intros Hp Hf Hs.
  destruct (fetch_settles_at s p t url rest (Response status) Hp Hf)
    as (s' & E & Ht & _ & Hc & Hfe).
  apply N.ltb_lt in Hs. unfold after_fetch in Ht, Hc, Hfe.
  rewrite Hs in Ht, Hc, Hfe. simpl in Ht, Hc, Hfe.
  eexists _, _. split; [exact E|]. split; [exact Ht|]. simpl. auto 10.
Qed.

(** The reactions of a resolved promise can run, and they fulfil the
    returned promise with the value the executor resolved. *)
Lemma settle_jobs_at (fs : fstate) (p : nat) (t : task) (v : string) :
  tasks (base fs) !! p = Some t -> inner t = Fulfilled v -> outer t = Pending ->
  exists fs' t',
    frun (if decide (p ∈ cleaned fs) then [JSettle p]
          else [JCallback p; JSettle p]) fs = Some fs'
    /\ tasks (base fs') !! p = Some t'
    /\ outer t' = Fulfilled v /\ inner t' = Fulfilled v
    /\ log t' = log t /\ frame t' = frame t
    /\ fetched (base fs') = fetched (base fs)
    /\ posterCache (base fs') = posterCache (base fs).
Proof.
  intros Hp Hin Ho.
  assert (Hlt : p < length (tasks (base fs))) by (eapply lookup_lt_Some; eauto).
  destruct (decide (p ∈ cleaned fs)) as [Hc|Hc]; simpl.
  - unfold settle_returned. rewrite Hp, Ho.
    destruct (decide (p ∈ cleaned fs)); [|contradiction].
    eexists _, _. split; [reflexivity|]. simpl.
    rewrite list_lookup_insert_eq by exact Hlt. split; [reflexivity|].
    simpl. rewrite Hin. simpl. auto 10.
  - unfold run_callback. rewrite Hp, Hin.
    destruct (decide (p ∈ cleaned fs)); [contradiction|].
    unfold settle_returned. simpl. rewrite Hp, Ho.
    destruct (decide (p ∈ {[p]} ∪ cleaned fs)) as [_|Hn];
      [|exfalso; apply Hn, elem_of_union_l, elem_of_singleton; reflexivity].
    eexists _, _. split; [reflexivity|]. simpl.
    rewrite list_lookup_insert_eq by exact Hlt. split; [reflexivity|].
    simpl. rewrite Hin. simpl. auto 10.
Qed.

(** The probes of a promise are a non-empty prefix of its three URLs. *)
Lemma probes_prefix (t : task) :
  task_ok t -> probes t <> [] /\ exists more, probes t ++ more = urls_of t.
Proof.
  intros Hok. unfold task_ok in Hok. unfold probes. split.
  - destruct (frame t) as [[url rest]|].
    + destruct (map fst (log t)); discriminate.
    + destruct Hok as (_ & [H | [H | H]]).
      * destruct H as (lg & url & st & -> & _). rewrite map_app. simpl.
        destruct (map fst lg); discriminate.
      * destruct H as (_ & _ & H). rewrite app_nil_r, H. discriminate.
      * destruct H as (_ & lg & url & -> & _). rewrite map_app. simpl.
        destruct (map fst lg); discriminate.
  - destruct (frame t) as [[url rest]|].
    + destruct Hok as (_ & _ & _ & H).
      exists (map (posterUrl (t_isChannel t) (t_src t)) rest).
      rewrite <- app_assoc. exact H.
    + rewrite app_nil_r. destruct Hok as (_ & [H | [H | H]]).
      * destruct H as (lg & url & st & _ & _ & _ & _ & H). exact H.
      * destruct H as (_ & _ & H). exists []. rewrite app_nil_r. exact H.
      * destruct H as (_ & lg & url & _ & _ & H). exact H.
Qed.

(** A promise keeps its index, its source and its kind. *)
Lemma fstep_task (j : job) (fs fs' : fstate) (p : nat) (t : task) :
  fstep j fs = Some fs' -> tasks (base fs) !! p = Some t ->
  exists t',
    tasks (base fs') !! p = Some t'
    /\ t_src t' = t_src t /\ t_isChannel t' = t_isChannel t.
Proof.
  intros Hs Hp.
  assert (Hlt : p < length (tasks (base fs))) by (eapply lookup_lt_Some; eauto).
  destruct j as [src b | q o | q | q]; simpl in Hs.
  - unfold on_base in Hs. injection Hs as <-. simpl. exists t.
    split; [|auto]. unfold findTwitchPoster.
    destruct (posterCache (base fs) !! cacheKey src b); [exact Hp|].
    destruct (pendingFetch (base fs) !! cacheKey src b); [exact Hp|].
    simpl. apply lookup_app_l_Some, Hp.
  - unfold on_base in Hs.
    destruct (fetch_settles q o (base fs)) as [s'|] eqn:E; [|discriminate].
    injection Hs as <-. simpl.
    destruct (fetch_settles_tasks _ _ _ _ E)
      as (tq & t' & Hq & _ & -> & Hsrc & Hb & _).
    destruct (decide (q = p)) as [->|Hne].
    + rewrite list_lookup_insert_eq by exact Hlt.
      exists t'. assert (tq = t) by congruence. subst tq. auto.
    + rewrite list_lookup_insert_ne by exact Hne. eauto.
  - unfold run_callback in Hs.
    destruct (tasks (base fs) !! q) as [tq|]; [|discriminate].
    destruct (inner tq); [discriminate| |];
      (destruct (decide (q ∈ cleaned fs)); [discriminate|]);
      injection Hs as <-; simpl; eauto.
  - unfold settle_returned in Hs.
    destruct (tasks (base fs) !! q) as [tq|] eqn:Hq; [|discriminate].
    destruct (decide (q ∈ cleaned fs)); [|discriminate].
    destruct (outer tq); try discriminate. injection Hs as <-. simpl.
    destruct (decide (q = p)) as [->|Hne].
    + rewrite list_lookup_insert_eq by exact Hlt.
      eexists. split; [reflexivity|]. simpl.
      assert (tq = t) by congruence. subst tq. auto.
    + rewrite list_lookup_insert_ne by exact Hne. eauto.
Qed.

Lemma frun_task (js : list job) (fs fs' : fstate) (p : nat) (t : task) :
  frun js fs = Some fs' -> tasks (base fs) !! p = Some t ->
  exists t',
    tasks (base fs') !! p = Some t'
    /\ t_src t' = t_src t /\ t_isChannel t' = t_isChannel t.
Proof.
  revert fs t. induction js as [|j js IH]; simpl; intros fs t Hr Hp.
  - injection Hr as <-. eauto.
  - destruct (fstep j fs) as [fs1|] eqn:E; [|discriminate].
    destruct (fstep_task j fs fs1 p t E Hp) as (t1 & Hp1 & Hs1 & Hb1).
    destruct (IH fs1 t1 Hr Hp1) as (t' & Hp' & Hs' & Hb').
    exists t'. split; [exact Hp'|]. split; congruence.
Qed.

(** The promise a call returns belongs to the requested source and kind. *)
Lemma call_promise_task (fs : fstate) (src : string) (b : bool) (p : nat) :
  FInv fs -> fst (findTwitchPoster src b (base fs)) = Promise p ->
  exists t,
    tasks (snd (findTwitchPoster src b (base fs))) !! p = Some t
    /\ t_src t = src /\ t_isChannel t = b.
Proof.
  intros I. unfold findTwitchPoster.
  destruct (posterCache (base fs) !! cacheKey src b); [discriminate|].
  destruct (pendingFetch (base fs) !! cacheKey src b) as [q|] eqn:Hpf; simpl.
  - intros [= ->]. apply (f_pending fs I) in Hpf.
    destruct Hpf as (t & Ht & Hk & _). apply cacheKey_inj in Hk.
    destruct Hk as [Hs Hb]. eauto.
  - intros [= <-]. eexists. split.
    + apply lookup_snoc_Some. right. split; reflexivity.
    + split; reflexivity.
Qed.

End SequenceFacts.

(** C1. A call for a key that is neither cached nor pending starts a probe
    sequence with the fetch of the largest size. Every probe sequence that
    [findTwitchPoster] has started has fetched a non-empty prefix of the
    URLs of the three sizes 1920x1080, 1280x720 and 640x360, in that order,
    in the channel format or in the video format. When the awaited fetch
    ends with a status below 400, the executor resolves its promise with
    the URL of that fetch and fetches nothing more. Such a response is the
    last entry of the sequence: all responses before it were failures, and
    the promise that the call returned is fulfilled with its URL, or it is
    still pending, and then its reactions can run and they fulfil it with
    that URL without a further fetch. *)
Theorem findTwitchPoster_probes (js : list job) (fs : fstate) :
  frun js finit = Some fs ->
  (forall src isChannel,
      posterCache (base fs) !! cacheKey src isChannel = None ->
      pendingFetch (base fs) !! cacheKey src isChannel = None ->
      exists s' t',
        findTwitchPoster src isChannel (base fs)
        = (Promise (length (tasks (base fs))), s')
        /\ tasks s' !! length (tasks (base fs)) = Some t'
        /\ t_src t' = src /\ t_isChannel t' = isChannel
        /\ probes t' = [posterUrl isChannel src {| width := 1920; height := 1080 |}]
        /\ fetched s' = fetched (base fs) ++ probes t')
  /\ (forall p t,
        tasks (base fs) !! p = Some t ->
        urls_of t
        = (if t_isChannel t then
             [ "https://static-cdn.jtvnw.net/previews-ttv/live_user_" +:+ t_src t +:+ "-1920x1080.jpg";
               "https://static-cdn.jtvnw.net/previews-ttv/live_user_" +:+ t_src t +:+ "-1280x720.jpg";
               "https://static-cdn.jtvnw.net/previews-ttv/live_user_" +:+ t_src t +:+ "-640x360.jpg" ]
           else
             [ "https://static-cdn.jtvnw.net/cf_vods/" +:+ t_src t +:+ "/thumb/thumb0-1920x1080.jpg";
               "https://static-cdn.jtvnw.net/cf_vods/" +:+ t_src t +:+ "/thumb/thumb0-1280x720.jpg";
               "https://static-cdn.jtvnw.net/cf_vods/" +:+ t_src t +:+ "/thumb/thumb0-640x360.jpg" ])
        /\ (probes t <> [] /\ exists more, probes t ++ more = urls_of t)
        /\ (forall url rest status,
              frame t = Some (url, rest) -> (status < 400)%N ->
              exists fs' t',
                fstep (JFetch p (Response status)) fs = Some fs'
                /\ tasks (base fs') !! p = Some t'
                /\ log t' = log t ++ [(url, Response status)]
                /\ frame t' = None /\ inner t' = Fulfilled url
                /\ fetched (base fs') = fetched (base fs))
        /\ (forall lg u status lg',
              log t = lg ++ (u, Response status) :: lg' -> (status < 400)%N ->
              lg' = [] /\ forallb failed lg = true /\ frame t = None
              /\ inner t = Fulfilled u
              /\ (outer t = Pending \/ outer t = Fulfilled u)
              /\ (outer t = Pending ->
                  exists fs' t',
                    frun (if decide (p ∈ cleaned fs) then [JSettle p]
                          else [JCallback p; JSettle p]) fs = Some fs'
                    /\ tasks (base fs') !! p = Some t'
                    /\ outer t' = Fulfilled u
                    /\ log t' = log t /\ frame t' = None
                    /\ fetched (base fs') = fetched (base fs)))
        /\ (forall u, inner t = Fulfilled u -> u <> EmptyString ->
              exists lg status,
                log t = lg ++ [(u, Response status)] /\ (status < 400)%N
                /\ forallb failed lg = true)).
Proof.
  intros Hr. pose proof (FInv_reached js fs Hr) as I. split.
  { intros src b Hc Hp. rewrite (findTwitchPoster_fresh src b (base fs) Hc Hp).
    eexists _, _. split; [reflexivity|]. simpl. split.
    - apply lookup_snoc_Some. right. split; reflexivity.
    - repeat split. }
  intros p t Ht.
  pose proof (f_tasks fs I p t Ht) as Hok.
  split; [apply probe_urls|].
  split; [apply probes_prefix, Hok|].
  assert (S : forall u, frame t = None -> inner t = Fulfilled u ->
              (outer t = Pending \/ outer t = Fulfilled u)
              /\ (outer t = Pending ->
                  exists fs' t',
                    frun (if decide (p ∈ cleaned fs) then [JSettle p]
                          else [JCallback p; JSettle p]) fs = Some fs'
                    /\ tasks (base fs') !! p = Some t'
                    /\ outer t' = Fulfilled u
                    /\ log t' = log t /\ frame t' = None
                    /\ fetched (base fs') = fetched (base fs))).
  { intros u Hf Hin. split.
    - unfold task_ok in Hok. rewrite Hf in Hok.
      destruct Hok as ([Ho | Ho] & _); [auto | right; congruence].
    - intros Ho.
      destruct (settle_jobs_at fs p t u Ht Hin Ho)
        as (fs' & t' & Hrun & Ht' & Ho' & _ & Hl & Hf' & Hfe & _).
      exists fs', t'. rewrite Hf in Hf'. auto 10. }
  unfold task_ok in Hok.
  split; [|split].
  - intros url rest status Hf Hs. unfold fstep, on_base.
    destruct (fetch_success_at (base fs) p t url rest status Ht Hf Hs)
      as (s' & t' & E & Ht' & Hf' & Hin & _ & Hl & Hfe & _).
    rewrite E. eexists _, t'. split; [reflexivity|]. simpl. auto 10.
  - intros lg u status lg' E Hs.
    destruct (frame t) as [[url rest]|] eqn:Hf.
    + destruct Hok as (_ & _ & Hl & _). exfalso.
      eapply all_failed_no_success; eauto.
    + destruct Hok as (Ho & [H | [H | H]]).
      * destruct H as (lg0 & url & st & E0 & Hst & Hl0 & Hin & _).
        rewrite E0 in E.
        destruct (first_not_failed failed lg0 lg lg' _ _ Hl0
                    (not_failed_success u status Hs) E) as (-> & [= -> ->] & ->).
        destruct (S _ eq_refl Hin) as [S1 S2]. auto 10.
      * destruct H as (_ & Hl & _). exfalso.
        eapply all_failed_no_success; eauto.
      * destruct H as (_ & lg0 & url & E0 & Hl0 & _). rewrite E0 in E.
        destruct (first_not_failed failed lg0 lg lg' _ _ Hl0
                    (not_failed_success u status Hs) E) as (_ & [=] & _).
  - intros u Hin Hu.
    destruct (frame t) as [[url rest]|].
    + destruct Hok as (Hp & _). congruence.
    + destruct Hok as (_ & [H | [H | H]]).
      * destruct H as (lg0 & url & st & E0 & Hst & Hl0 & Hin' & _).
        assert (url = u) by congruence. subst url. eauto.
      * destruct H as (H & _). congruence.
      * destruct H as (H & _). congruence.
Qed.

Lemma findTwitchPoster_probes_witness :
  exists fs' t',
    frun [JCallback 0; JSettle 0]
      (default finit
         (frun [JCall "x" true; JFetch 0 (Response 404);
                JFetch 0 (Response 200)] finit)) = Some fs'
    /\ tasks (base fs') !! 0 = Some t'
    /\ outer t'
       = Fulfilled "https://static-cdn.jtvnw.net/previews-ttv/live_user_x-1280x720.jpg"
    /\ fetched (base fs')
       = [ "https://static-cdn.jtvnw.net/previews-ttv/live_user_x-1920x1080.jpg";
           "https://static-cdn.jtvnw.net/previews-ttv/live_user_x-1280x720.jpg" ].
Proof.
  pose proof (findTwitchPoster_probes
    [JCall "x" true; JFetch 0 (Response 404); JFetch 0 (Response 200)]
    _ eq_refl) as (_ & H).
  destruct (H 0 _ eq_refl) as (_ & _ & _ & H' & _).
  destruct (H' [("https://static-cdn.jtvnw.net/previews-ttv/live_user_x-1920x1080.jpg",
                 Response 404)] _ 200%N [] eq_refl eq_refl)
    as (_ & _ & _ & _ & _ & Hs).
  destruct (Hs eq_refl) as (fs' & t' & Hrun & Ht & Ho & _ & _ & Hfe).
  exists fs', t'. split; [exact Hrun|]. split; [exact Ht|].
  split; [exact Ho | exact Hfe].
Defined.

(** C2. When the awaited fetch of a probe sequence ends with a status of 400
    or more, the next smaller size is fetched, if there is one; after the
    third such response the promise is resolved with the empty string,
    nothing is stored or fetched, and the returned promise is fulfilled
    with the empty string, not rejected. *)
Theorem findTwitchPoster_next_size (es : list event) (s : state) (p : nat)
    (t : task) (url : string) (rest : list size) (status : N) :
  run es init = Some s -> tasks s !! p = Some t ->
  frame t = Some (url, rest) -> (400 <= status)%N ->
  exists s' t',
    step (FetchSettles p (Response status)) s = Some s'
    /\ tasks s' !! p = Some t'
    /\ posterCache s' = posterCache s
    /\ log t' = log t ++ [(url, Response status)]
    /\ match rest with
       | sz :: rest' =>
           let next := posterUrl (t_isChannel t) (t_src t) sz in
           frame t' = Some (next, rest')
           /\ inner t' = Pending
           /\ fetched s' = fetched s ++ [next]
           /\ exists before,
                before ++ url :: next
                  :: map (posterUrl (t_isChannel t) (t_src t)) rest'
                = urls_of t
       | [] =>
           map fst (log t') = urls_of t
           /\ forallb failed (log t') = true
           /\ frame t' = None
           /\ inner t' = Fulfilled EmptyString
           /\ fetched s' = fetched s
           /\ exists s'' t'',
                step (RunFinally p) s' = Some s''
                /\ tasks s'' !! p = Some t''
                /\ outer t'' = Fulfilled EmptyString
                /\ posterCache s'' = posterCache s
       end.
Proof.
  intros Hr Hp Hf Hst. pose proof (Inv_reached es s Hr) as I.
  pose proof (inv_tasks s I p t Hp) as Hok.
  destruct (fetch_settles_at s p t url rest (Response status) Hp Hf)
    as (s' & Hs & Ht' & Hpf & Hc & Hfe).
  pose proof (task_ok_next t url rest (Response status) s Hok Hf) as Hok'.
  unfold task_ok in Hok. rewrite Hf in Hok.
  destruct Hok as (Hin & Hout & Hlog & Hurls).
  simpl in Hs, Ht', Hc, Hfe, Hok'.
  assert (E : (status <? 400)%N = false) by (apply N.ltb_ge, Hst).
  rewrite E in *. exists s'.
  destruct rest as [|sz rest']; simpl in *.
  - eexists. split; [exact Hs|]. split; [exact Ht'|]. simpl.
    split; [exact Hc|]. split; [reflexivity|].
    unfold task_ok in Hok'. simpl in Hok'.
    split; [rewrite map_app; exact Hurls|].
    split; [apply forallb_snoc; [exact Hlog | now apply failed_response]|].
    repeat (split; [auto; fail|]).
    destruct (run_finally_at s' p _ EmptyString Ht' eq_refl Hout)
      as (s'' & t'' & H1 & H2 & H3 & _ & _ & _ & _ & H4 & _).
    exists s'', t''. repeat split; auto. congruence.
  - eexists. split; [exact Hs|]. split; [exact Ht'|]. simpl.
    split; [exact Hc|]. split; [reflexivity|].
    repeat (split; [auto; fail|]).
    exists (map fst (log t)). exact Hurls.
Qed.

Lemma findTwitchPoster_next_size_witness :
  exists s',
    step (FetchSettles 0 (Response 404))
      (snd (findTwitchPoster "x" false init)) = Some s'
    /\ fetched s'
       = [ "https://static-cdn.jtvnw.net/cf_vods/x/thumb/thumb0-1920x1080.jpg";
           "https://static-cdn.jtvnw.net/cf_vods/x/thumb/thumb0-1280x720.jpg" ].
Proof.
  destruct (findTwitchPoster_next_size [Call "x" false] _ 0 _ _ _ 404%N
              eq_refl eq_refl eq_refl ltac:(vm_compute; discriminate))
    as (s' & t' & Hs & _ & _ & _ & _ & _ & Hf & _).
  exists s'. split; [exact Hs | exact Hf].
Defined.

(** C3. Once a promise of [findTwitchPoster] is fulfilled with a URL [u],
    every later call with the same source and kind returns [u] from
    [posterCache] and leaves the state, and so the list of issued fetches,
    as it is. *)
Theorem findTwitchPoster_cached (es es' : list event) (s s' : state) (p : nat)
    (t : task) (u : string) :
  run es init = Some s -> tasks s !! p = Some t ->
  outer t = Fulfilled u -> u <> EmptyString ->
  run es' s = Some s' ->
  posterCache s' !! cacheKey (t_src t) (t_isChannel t) = Some u
  /\ findTwitchPoster (t_src t) (t_isChannel t) s' = (Value u, s').
Proof.
  intros Hr Hp Hout Hu Hr'. pose proof (Inv_reached es s Hr) as I.
  pose proof (inv_tasks s I p t Hp) as Hok.
  assert (Hin : inner t = Fulfilled u).
  { unfold task_ok in Hok. destruct (frame t) as [[url rest]|].
    - destruct Hok as (_ & Ho & _). congruence.
    - destruct Hok as ([Ho | Ho] & _); congruence. }
  assert (Hc : posterCache s !! t_key t = Some u).
  { apply (inv_cache s I). eauto 6. }
  pose proof (cache_run es' s s' _ _ I Hr' Hc) as Hc'.
  split; [exact Hc'|].
  unfold findTwitchPoster. unfold t_key in Hc'. rewrite Hc'. reflexivity.
Qed.

Lemma findTwitchPoster_cached_witness :
  fst (findTwitchPoster "x" true
         (default init
            (run [Call "x" true; FetchSettles 0 (Response 200); RunFinally 0;
                  Call "y" false; Call "x" true] init)))
  = Value "https://static-cdn.jtvnw.net/previews-ttv/live_user_x-1920x1080.jpg".
Proof.
  destruct (findTwitchPoster_cached
    [Call "x" true; FetchSettles 0 (Response 200); RunFinally 0]
    [Call "y" false; Call "x" true] _ _ 0 _ _
    eq_refl eq_refl eq_refl ltac:(discriminate) eq_refl) as [_ H].
  simpl t_src in H. simpl t_isChannel in H.
  exact (f_equal fst H).
Defined.

(** C4, as amended. With the reactions of a promise as separate jobs, in
    every reachable state at most one probe sequence per cache key is in
    flight. A call made while [pendingFetch] holds the key starts no fetch
    and changes nothing: it returns the pending promise, unless
    [posterCache] holds the key already, in which case it returns the cached
    URL, which is what the pending promise is resolved with. The key is in
    [pendingFetch] exactly until the finally callback of its promise has
    run; the callback runs after the executor has resolved the promise and
    removes the key while the returned promise is still pending, and that
    promise settles afterwards, leaving the map as it is. *)
Theorem pendingFetch_single_flight (js : list job) (fs : fstate) :
  frun js finit = Some fs ->
  (forall p q tp tq,
      tasks (base fs) !! p = Some tp -> tasks (base fs) !! q = Some tq ->
      t_key tp = t_key tq -> frame tp <> None -> frame tq <> None -> p = q)
  /\ (forall src isChannel p,
        pendingFetch (base fs) !! cacheKey src isChannel = Some p ->
        match posterCache (base fs) !! cacheKey src isChannel with
        | None => findTwitchPoster src isChannel (base fs) = (Promise p, base fs)
        | Some u =>
            findTwitchPoster src isChannel (base fs) = (Value u, base fs)
            /\ exists t, tasks (base fs) !! p = Some t /\ inner t = Fulfilled u
        end)
  /\ (forall p t,
        tasks (base fs) !! p = Some t ->
        (pendingFetch (base fs) !! t_key t = Some p <-> p ∉ cleaned fs)
        /\ (pendingFetch (base fs) !! t_key t = Some p -> outer t = Pending)
        /\ (p ∈ cleaned fs -> frame t = None /\ inner t <> Pending))
  /\ (forall p t fs',
        tasks (base fs) !! p = Some t -> fstep (JCallback p) fs = Some fs' ->
        pendingFetch (base fs) !! t_key t = Some p
        /\ pendingFetch (base fs') = delete (t_key t) (pendingFetch (base fs))
        /\ tasks (base fs') = tasks (base fs)
        /\ outer t = Pending)
  /\ (forall p t fs',
        tasks (base fs) !! p = Some t -> fstep (JSettle p) fs = Some fs' ->
        pendingFetch (base fs) !! t_key t <> Some p
        /\ pendingFetch (base fs') = pendingFetch (base fs)
        /\ exists t' v,
             tasks (base fs') !! p = Some t' /\ outer t' = Fulfilled v
             /\ inner t = Fulfilled v).
Proof.
  intros Hr. pose proof (FInv_reached js fs Hr) as I.
  assert (K : forall p t, tasks (base fs) !! p = Some t ->
              (pendingFetch (base fs) !! t_key t = Some p <-> p ∉ cleaned fs)).
  { intros p t Hp. split.
    - intros Hpf. apply (f_pending fs I) in Hpf.
      destruct Hpf as (_ & _ & _ & H). exact H.
    - intros Hc. apply (f_pending fs I). eauto. }
  split; [|split; [|split; [|split]]].
  - intros p q tp tq Hp Hq Hk Hfp Hfq.
    eapply uncleaned_unique; eauto using awaiting_uncleaned.
  - intros src b p Hpf. unfold findTwitchPoster.
    destruct (posterCache (base fs) !! cacheKey src b) as [u|] eqn:Hc.
    + split; [reflexivity|].
      apply (f_pending fs I) in Hpf. destruct Hpf as (t & Ht & Hk & Ho).
      exists t. split; [exact Ht|].
      eapply (f_await fs I); eauto. congruence.
    + rewrite Hpf. reflexivity.
  - intros p t Hp. split; [apply K, Hp|]. split.
    + intros Hpf. apply (K p t Hp) in Hpf.
      destruct (outer t) eqn:Ho; [reflexivity| |];
        exfalso; apply Hpf; eapply (f_outer fs I); eauto; congruence.
    + intros Hc. destruct (f_cleaned fs I p Hc) as (t0 & Ht0 & Hf).
      assert (t0 = t) by congruence. subst t0. split; [exact Hf|].
      pose proof (f_tasks fs I p t Hp) as Hok. unfold task_ok in Hok.
      rewrite Hf in Hok. destruct Hok as (_ & [H | [H | H]]).
      * destruct H as (? & url & ? & _ & _ & _ & H & _). congruence.
      * destruct H as (H & _). congruence.
      * destruct H as (H & _). congruence.
  - intros p t fs' Hp Hs. simpl in Hs. unfold run_callback in Hs.
    rewrite Hp in Hs.
    assert (G : p ∉ cleaned fs -> outer t = Pending).
    { intros Hc. destruct (outer t) eqn:Ho; [reflexivity| |];
        exfalso; apply Hc; eapply (f_outer fs I); eauto; congruence. }
    destruct (inner t); [discriminate| |];
      (destruct (decide (p ∈ cleaned fs)) as [|Hc]; [discriminate|]);
      injection Hs as <-; simpl;
      (split; [apply (K p t Hp), Hc | auto]).
  - intros p t fs' Hp Hs. simpl in Hs. unfold settle_returned in Hs.
    rewrite Hp in Hs.
    destruct (decide (p ∈ cleaned fs)) as [Hc|]; [|discriminate].
    destruct (outer t) eqn:Ho; try discriminate. injection Hs as <-.
    assert (Hlt : p < length (tasks (base fs))) by (eapply lookup_lt_Some; eauto).
    split; [intros Hpf; apply (K p t Hp) in Hpf; contradiction|].
    split; [reflexivity|]. simpl.
    destruct (f_cleaned fs I p Hc) as (t0 & Ht0 & Hf).
    assert (t0 = t) by congruence. subst t0.
    pose proof (f_tasks fs I p t Hp) as Hok. unfold task_ok in Hok.
    rewrite Hf in Hok.
    assert (Hv : exists v, inner t = Fulfilled v).
    { destruct Hok as (_ & [H | [H | H]]).
      - destruct H as (? & url & ? & _ & _ & _ & H & _). eauto.
      - destruct H as (H & _). eauto.
      - destruct H as (H & _). eauto. }
    destruct Hv as [v Hv]. eexists _, v.
    rewrite list_lookup_insert_eq by exact Hlt. split; [reflexivity|].
    simpl. rewrite Hv. auto.
Qed.

Lemma pendingFetch_single_flight_witness :
  findTwitchPoster "x" true
    (base (default finit (frun [JCall "y" true; JCall "x" true] finit)))
  = (Promise 1,
     base (default finit (frun [JCall "y" true; JCall "x" true] finit))).
Proof.
  destruct (pendingFetch_single_flight [JCall "y" true; JCall "x" true] _ eq_refl)
    as (_ & H & _).
  exact (H "x" true 1 eq_refl).
Defined.

(** C4 as first stated fails in two places. After a probe has succeeded and
    before the reactions of the promise have run, the key is in both maps,
    and a call returns the cached URL instead of the pending promise. And
    the key leaves [pendingFetch] before the returned promise settles: once
    the callback has run, the key is gone while the promise is pending, and
    a call for it starts a second probe sequence. *)
Lemma pendingFetch_call_after_success :
  match run [Call "x" true; FetchSettles 0 (Response 200)] init with
  | Some s =>
      pendingFetch s !! cacheKey "x" true = Some 0
      /\ fst (findTwitchPoster "x" true s)
         = Value "https://static-cdn.jtvnw.net/previews-ttv/live_user_x-1920x1080.jpg"
      /\ fst (findTwitchPoster "x" true s) <> Promise 0
  | None => False
  end
  /\ match frun [JCall "x" true; JFetch 0 NetworkError; JCallback 0] finit with
     | Some fs =>
         pendingFetch (base fs) !! cacheKey "x" true = None
         /\ outer <$> tasks (base fs) !! 0 = Some Pending
         /\ fst (findTwitchPoster "x" true (base fs)) = Promise 1
         /\ length (fetched (snd (findTwitchPoster "x" true (base fs)))) = 2
     | None => False
     end.
Proof. vm_compute. repeat split; discriminate. Qed.

Section DriveFacts.

Lemma finish_settles (s : state) (p : nat) (t : task) :
  Inv s -> tasks s !! p = Some t -> frame t = None ->
  exists t' v, tasks (finish p s) !! p = Some t' /\ outer t' = Fulfilled v.
Proof.
  intros I Hp Hf. pose proof (inv_tasks s I p t Hp) as Hok.
  unfold task_ok in Hok. rewrite Hf in Hok. destruct Hok as (Ho & Hin).
  assert (Hv : exists v, inner t = Fulfilled v).
  { destruct Hin as [H | [H | H]].
    - destruct H as (? & url & ? & _ & _ & _ & H & _). eauto.
    - destruct H as (H & _). eauto.
    - destruct H as (H & _). eauto. }
  destruct Hv as [v Hv]. unfold finish. destruct Ho as [Ho | Ho].
  - destruct (run_finally_at s p t v Hp Hv Ho) as (s' & t' & -> & Ht' & Ho' & _).
    eauto.
  - unfold run_finally. rewrite Hp, Hv, Ho, Hv. exists t, v. split; congruence.
Qed.

Lemma drive_settles (p : nat) (os : list fetchOutcome) (s : state) (t : task) :
  Inv s -> tasks s !! p = Some t ->
  (forall url rest, frame t = Some (url, rest) -> length rest < length os) ->
  exists t' v, tasks (drive p os s) !! p = Some t' /\ outer t' = Fulfilled v.
Proof.
  revert s t. induction os as [|o os IH]; intros s t I Hp Hlen.
  - simpl. destruct (frame t) as [[url rest]|] eqn:Hf.
    + specialize (Hlen url rest eq_refl). simpl in Hlen. lia.
    + eapply finish_settles; eauto.
  - simpl. destruct (frame t) as [[url rest]|] eqn:Hf.
    + destruct (fetch_settles_at s p t url rest o Hp Hf)
        as (s1 & Hs & Ht1 & _).
      rewrite Hs. eapply IH; [eapply Inv_fetch_settles; eauto | exact Ht1 |].
      specialize (Hlen url rest eq_refl). simpl in Hlen.
      intros url' rest'. destruct o as [status|]; simpl.
      * destruct (status <? 400)%N; simpl; [discriminate|].
        destruct rest as [|sz rest0]; simpl; [discriminate|].
        intros [= _ <-]. simpl in Hlen. lia.
      * discriminate.
    + assert (E : fetch_settles p o s = None).
      { unfold fetch_settles. rewrite Hp, Hf. reflexivity. }
      rewrite E. eapply finish_settles; eauto.
Qed.



End DriveFacts.

(** C9. A call returns either a string or one of the promises below. No
    promise of [findTwitchPoster] is ever rejected, neither the one its
    executor resolves nor the one it returns. A fetch that throws while it
    is awaited resolves the promise with the empty string at once: no
    further size is fetched and nothing is stored. Whatever the outcomes of
    its fetches, a network error or an abort included, the returned promise
    ends up fulfilled with a string. *)
Theorem findTwitchPoster_never_rejects (es : list event) (s : state) :
  run es init = Some s ->
  (forall src isChannel,
      match findTwitchPoster src isChannel s with
      | (Value _, s') => s' = s
      | (Promise q, s') => exists tq, tasks s' !! q = Some tq
      end)
  /\ (forall p t,
        tasks s !! p = Some t ->
        (inner t <> Rejected /\ outer t <> Rejected)
        /\ (forall url rest,
              frame t = Some (url, rest) ->
              exists s' t',
                step (FetchSettles p NetworkError) s = Some s'
                /\ tasks s' !! p = Some t'
                /\ frame t' = None /\ inner t' = Fulfilled EmptyString
                /\ fetched s' = fetched s /\ posterCache s' = posterCache s)
        /\ (forall o1 o2 o3,
              exists t' v,
                tasks (drive p [o1; o2; o3] s) !! p = Some t'
                /\ outer t' = Fulfilled v)).
Proof.
  intros Hr. pose proof (Inv_reached es s Hr) as I. split.
  { intros src b. unfold findTwitchPoster.
    destruct (posterCache s !! cacheKey src b) as [u|]; [reflexivity|].
    destruct (pendingFetch s !! cacheKey src b) as [q|] eqn:Hq.
    - apply (inv_pending s I) in Hq. destruct Hq as (tq & Hq & _). eauto.
    - simpl. eexists. apply lookup_snoc_Some. right. split; reflexivity. }
  intros p t Hp.
  pose proof (inv_tasks s I p t Hp) as Hok.
  split; [|split].
  - unfold task_ok in Hok. destruct (frame t) as [[url rest]|].
    + destruct Hok as (-> & -> & _). split; discriminate.
    + destruct Hok as (Ho & Hin).
      assert (Hv : exists v, inner t = Fulfilled v).
      { destruct Hin as [H | [H | H]].
        - destruct H as (? & url & ? & _ & _ & _ & H & _). eauto.
        - destruct H as (H & _). eauto.
        - destruct H as (H & _). eauto. }
      destruct Hv as [v Hv]. rewrite Hv in *.
      split; [discriminate|]. destruct Ho as [-> | ->]; discriminate.
  - intros url rest Hf.
    destruct (fetch_settles_at s p t url rest NetworkError Hp Hf)
      as (s' & Hs & Ht' & _ & Hc & Hfe).
    simpl in *. eexists s', _. split; [exact Hs|]. split; [exact Ht'|].
    simpl. auto.
  - intros o1 o2 o3. eapply drive_settles; eauto.
    intros url rest Hf. unfold task_ok in Hok. rewrite Hf in Hok.
    destruct Hok as (_ & _ & _ & H).
    apply (f_equal (@length string)) in H.
    unfold urls_of in H. rewrite length_app in H. simpl in H.
    rewrite !length_map in H. simpl. lia.
Qed.

Lemma findTwitchPoster_never_rejects_witness :
  exists t' v,
    tasks (drive 0 [Response 500; NetworkError; Response 200]
             (snd (findTwitchPoster "x" true init))) !! 0 = Some t'
    /\ outer t' = Fulfilled v.
Proof.
  destruct (findTwitchPoster_never_rejects [Call "x" true] _ eq_refl)
    as (_ & H).
  destruct (H 0 _ eq_refl) as (_ & _ & H').
  exact (H' (Response 500) NetworkError (Response 200)).
Defined.

Section CacheFacts.


End CacheFacts.



(** * More on the two patterns *)

Section PatternFacts.

Lemma append_nil_l (x : string) : EmptyString +:+ x = x.
Proof. reflexivity. Qed.

Lemma append_nil_r (x : string) : x +:+ EmptyString = x.
Proof.
  induction x as [|a x IH]; [reflexivity|]. rewrite append_cons. now rewrite IH.
Qed.

Lemma append_assoc (x y z : string) : (x +:+ y) +:+ z = x +:+ y +:+ z.
Proof.
  induction x as [|a x IH]; [reflexivity|]. rewrite !append_cons. now rewrite IH.
Qed.

Lemma length_append (x y : string) :
  String.length (x +:+ y) = String.length x + String.length y.
Proof.
  induction x as [|a x IH]; [reflexivity|]. rewrite append_cons. simpl. now rewrite IH.
Qed.

Lemma substring_prefix (d y : string) :
  substring 0 (String.length d) (d +:+ y) = d.
Proof.
  induction d as [|a d IH].
  - simpl. destruct (EmptyString +:+ y); reflexivity.
  - rewrite append_cons. simpl. now rewrite IH.
Qed.

Lemma consumed_prefix (d y : string) : consumed (d +:+ y) y = d.
Proof.
  unfold consumed. rewrite length_append.
  replace (String.length d + String.length y - String.length y)
    with (String.length d) by lia.
  apply substring_prefix.
Qed.

(** The greedy repetition stops at the first character outside the class
    when the continuation accepts there. *)
Lemma star_run (cls : ascii -> bool) (d post : string) (cap : option string)
    (k : cont) (r : mstate) :
  all_in cls d = true -> starts_in cls post = false ->
  k post cap = Some r -> star cls (d +:+ post) cap k = Some r.
Proof.
  intros Hd Hp Hk. induction d as [|a d IH].
  - rewrite append_nil_l. destruct post as [|b post]; [exact Hk|].
    simpl in *. rewrite Hp. exact Hk.
  - rewrite append_cons. simpl in *. apply andb_prop in Hd. destruct Hd as [Ha Hd].
    rewrite Ha, (IH Hd). reflexivity.
Qed.

Lemma star_some (cls : ascii -> bool) (x : string) (cap : option string)
    (k : cont) :
  (forall y, k y cap <> None) -> star cls x cap k <> None.
Proof.
  intros Hk. induction x as [|a x IH]; simpl; [apply Hk|].
  destruct (cls a); [|apply Hk].
  destruct (star cls x cap k); [discriminate | contradiction].
Qed.

(** With a continuation that never fails, the repetition takes the whole
    run of the class. *)
Lemma star_greedy (cls : ascii -> bool) (x : string) (cap : option string)
    (k : cont) (r : mstate) :
  (forall y, k y cap <> None) -> star cls x cap k = Some r ->
  exists d post,
    x = d +:+ post /\ all_in cls d = true /\ starts_in cls post = false
    /\ k post cap = Some r.
Proof.
  intros Hk. induction x as [|a x IH]; simpl; intros H.
  - exists EmptyString, EmptyString. auto.
  - destruct (cls a) eqn:Ha.
    + destruct (star cls x cap k) as [r'|] eqn:E.
      * injection H as ->. destruct (IH eq_refl) as (d & post & -> & Hd & Hp & Hr).
        exists (String a d), post. rewrite append_cons. simpl. rewrite Ha. auto.
      * exfalso. eapply star_some; eauto.
    + exists EmptyString, (String a x). simpl. auto.
Qed.

(** With a continuation that only accepts the end of the input, the
    repetition succeeds only on an input made of the class. *)
Lemma star_to_end (cls : ascii -> bool) (x : string) (cap : option string)
    (k : cont) (r : mstate) :
  (forall a y c, k (String a y) c = None) -> star cls x cap k = Some r ->
  all_in cls x = true /\ k EmptyString cap = Some r.
Proof.
  intros Hk. induction x as [|a x IH]; simpl; intros H; [auto|].
  destruct (cls a).
  - destruct (star cls x cap k) as [r'|] eqn:E.
    + injection H as ->. destruct (IH eq_refl). auto.
    + rewrite Hk in H. discriminate.
  - rewrite Hk in H. discriminate.
Qed.

(** A successful search succeeded at some position. *)
Lemma js_match_at (r : regex) (x : string) (g : option string) :
  js_match r x = Some g ->
  exists pre x' z, x = pre +:+ x' /\ exec_at r x' = Some (z, g).
Proof.
  induction x as [|a x IH]; simpl.
  - destruct (exec_at r EmptyString) as [[z c]|] eqn:E; [|discriminate].
    intros [= <-]. exists EmptyString, EmptyString, z. auto.
  - destruct (exec_at r (String a x)) as [[z c]|] eqn:E.
    + intros [= <-]. exists EmptyString, (String a x), z. auto.
    + intros H. destruct (IH H) as (pre & x' & z & -> & E').
      exists (String a pre), x', z. rewrite append_cons. auto.
Qed.

Lemma js_match_here (r : regex) (x z : string) (g : option string) :
  exec_at r x = Some (z, g) -> js_match r x = Some g.
Proof. intros E. destruct x; simpl; rewrite E; reflexivity. Qed.

(** What follows the literal in a channel match. *)
Lemma channel_rest_match (y z : string) (g : option string) :
  m channelRest y None accept = Some (z, g) ->
  channel_name y /\ g = Some y /\ z = EmptyString.
Proof.
  unfold channelRest. cbn [m].
  destruct (strip "video" y) as [y0|] eqn:Ev.
  { destruct (strip "s" y0); discriminate. }
  destruct y as [|a y]; [discriminate|].
  destruct (word a) eqn:Ha; [|discriminate].
  intros H. apply star_to_end in H; [|reflexivity].
  destruct H as [Hy H]. unfold accept in H. rewrite consumed_whole in H.
  injection H as <- <-. repeat split.
  - discriminate.
  - simpl. now rewrite Ha, Hy.
  - unfold starts_with. now rewrite Ev.
Qed.

Lemma exec_channel_match (x z : string) (g : option string) :
  exec_at channelNameRE x = Some (z, g) ->
  exists lit c,
    In lit channelLiterals /\ x = lit +:+ c /\ channel_name c /\ g = Some c.
Proof.
  rewrite exec_channel. intros H.
  assert (A : forall lit,
            In lit channelLiterals ->
            match strip lit x with
            | Some y => m channelRest y None accept
            | None => None
            end = Some (z, g) ->
            exists lit c,
              In lit channelLiterals /\ x = lit +:+ c /\ channel_name c
              /\ g = Some c).
  { intros lit Hl E. destruct (strip lit x) as [y|] eqn:Es; [|discriminate].
    apply strip_Some in Es. apply channel_rest_match in E.
    destruct E as (Hc & -> & _). exists lit, y. auto. }
  unfold channelLiterals in A.
  repeat match type of H with
  | match ?e with Some _ => _ | None => _ end = _ =>
      let E := fresh "E" in
      destruct e as [[? ?]|] eqn:E;
      [ injection H as -> ->; eapply A; [|exact E]; simpl; auto | ]
  end.
  eapply A; [|exact H]. simpl; auto.
Qed.


(** Two runs of the class that end the same string, each after a character
    outside the class, are the same run. *)
Lemma run_unique (cls : ascii -> bool) (a b y c : string) (p q : ascii) :
  a +:+ String p y = b +:+ String q c ->
  cls p = false -> cls q = false ->
  all_in cls y = true -> all_in cls c = true -> y = c.
Proof.
  intros E Hp Hq Hy Hc. revert b E.
  induction a as [|h a IH]; intros [|h' b] E;
    rewrite ?append_nil_l, ?append_cons in E.
  - now injection E.
  - injection E as _ ->. rewrite all_in_app in Hy. simpl in Hy.
    rewrite Hq in Hy. rewrite andb_false_r in Hy. discriminate.
  - injection E as _ <-. rewrite all_in_app in Hc. simpl in Hc.
    rewrite Hp in Hc. rewrite andb_false_r in Hc. discriminate.
  - injection E as _ E. eauto.
Qed.

(** Each literal of the channel pattern ends with a character outside [\w]. *)
Lemma channel_literal_end (lit : string) :
  In lit channelLiterals ->
  exists body p, lit = body +:+ String p EmptyString /\ word p = false.
Proof.
  intros [<- | [<- | [<- | []]]].
  - exists "twitch.tv", "/"%char. split; reflexivity.
  - exists "player.twitch.tv/?channel", "="%char. split; reflexivity.
  - exists "twitch", "/"%char. split; reflexivity.
Qed.

Lemma channel_capture_unique (a b lit lit' y c : string) :
  In lit channelLiterals -> In lit' channelLiterals ->
  a +:+ lit +:+ y = b +:+ lit' +:+ c ->
  all_in word y = true -> all_in word c = true -> y = c.
Proof.
  intros Hl Hl' E Hy Hc.
  destruct (channel_literal_end lit Hl) as (body & p & -> & Hp).
  destruct (channel_literal_end lit' Hl') as (body' & q & -> & Hq).
  rewrite !append_assoc, !append_cons, !append_nil_l, <- !append_assoc in E.
  eapply run_unique; eauto.
Qed.

(** The attempt at a literal followed by a channel name succeeds. *)
Lemma exec_channel_here (lit c : string) :
  In lit channelLiterals -> channel_name c ->
  exec_at channelNameRE (lit +:+ c) <> None.
Proof.
  intros Hl (Hne & Hw & Hv). pose proof (channel_tail c Hne Hw Hv) as Hc.
  rewrite exec_channel.
  destruct Hl as [<- | [<- | [<- | []]]].
  - rewrite strip_app, Hc. discriminate.
  - rewrite (strip_app "player.twitch.tv/?channel="), Hc.
    destruct (match strip "twitch.tv/" _ with Some _ => _ | None => _ end);
      discriminate.
  - rewrite (strip_app "twitch/"), Hc.
    repeat match goal with
    | |- context [match ?e with Some res => Some res | None => _ end] =>
        destruct e
    end; discriminate.
Qed.

(** The channel pattern matches exactly the inputs that end with one of its
    literals followed by a channel name, and captures that name. *)
Lemma channel_match_iff (src c : string) :
  js_match channelNameRE src = Some (Some c)
  <-> channel_name c
      /\ exists pre lit, In lit channelLiterals /\ src = pre +:+ lit +:+ c.
Proof.
  split.
  - intros H. apply js_match_at in H. destruct H as (pre & x' & z & -> & E).
    apply exec_channel_match in E.
    destruct E as (lit & c' & Hl & -> & Hc & [= <-]). eauto.
  - intros (Hc & pre & lit & Hl & ->).
    induction pre as [|h pre IH].
    + rewrite append_nil_l.
      destruct (exec_at channelNameRE (lit +:+ c)) as [[z g]|] eqn:E.
      2:{ exfalso. eapply exec_channel_here; eauto. }
      rewrite (js_match_here _ _ _ _ E).
      apply exec_channel_match in E.
      destruct E as (lit' & c' & Hl' & E' & (_ & Hw' & _) & ->).
      destruct Hc as (_ & Hw & _).
      assert (c' = c); [|congruence].
      eapply (channel_capture_unique EmptyString EmptyString lit' lit);
        eauto.
    + rewrite append_cons, js_match_cons.
      destruct (exec_at channelNameRE (String h (pre +:+ lit +:+ c)))
        as [[z g]|] eqn:E; [|exact IH].
      apply exec_channel_match in E.
      destruct E as (lit' & c' & Hl' & E' & (_ & Hw' & _) & ->).
      destruct Hc as (_ & Hw & _).
      assert (c' = c); [|congruence].
      rewrite <- append_cons in E'.
      eapply (channel_capture_unique EmptyString (String h pre) lit' lit); eauto.
Qed.

(** A non-empty run of the class that ends a string: the last character of
    the string is in the class. *)
Lemma last_in_run (cls : ascii -> bool) (x y c : string) (a : ascii) :
  x +:+ String a EmptyString = y +:+ c ->
  c <> EmptyString -> all_in cls c = true -> cls a = true.
Proof.
  revert y. induction x as [|h x IH]; intros [|h' y] E Hne Hc;
    rewrite ?append_nil_l, ?append_cons in E.
  - subst c. simpl in Hc. now rewrite andb_true_r in Hc.
  - injection E as _ E. destruct y; [|discriminate].
    rewrite append_nil_l in E. congruence.
  - subst c. simpl in Hc. apply andb_prop in Hc. destruct Hc as [_ Hc].
    rewrite all_in_app in Hc. simpl in Hc.
    apply andb_prop in Hc. destruct Hc as [_ Hc]. now rewrite andb_true_r in Hc.
  - injection E as _ E. eauto.
Qed.

End PatternFacts.

(** X1. [resolveTwitchSource] returns a channel [c] exactly when the video
    pattern does not match and the input ends with one of the three channel
    literals followed by [c], where [c] is a non-empty run of word
    characters that does not start with [video]. Anything may come before
    the literal; nothing may come after the name. *)
Theorem resolveTwitchSource_channel_iff (src c : string) :
  resolveTwitchSource src = {| channel := Some c; videoId := None |}
  <-> js_match videoIdRE src = None
      /\ channel_name c
      /\ exists pre lit, In lit channelLiterals /\ src = pre +:+ lit +:+ c.
Proof.
  rewrite <- channel_match_iff. unfold resolveTwitchSource. split.
  - destruct (js_match videoIdRE src) as [g|]; [discriminate|].
    destruct (js_match channelNameRE src) as [g|]; [|discriminate].
    intros [= ->]. auto.
  - intros [-> ->]. reflexivity.
Qed.

(** X2. An input that ends with a character outside [\w], a trailing slash
    or a query string for one, never gives a channel. *)
Theorem resolveTwitchSource_channel_needs_word_end (src : string) (a : ascii) :
  word a = false ->
  channel (resolveTwitchSource (src +:+ String a EmptyString)) = None.
Proof.
  intros Ha. unfold resolveTwitchSource.
  destruct (js_match videoIdRE _); [reflexivity|].
  destruct (js_match channelNameRE _) as [[c|]|] eqn:E; try reflexivity.
  exfalso. apply channel_match_iff in E.
  destruct E as ((Hne & Hw & _) & pre & lit & _ & E).
  rewrite <- append_assoc in E.
  pose proof (last_in_run word _ _ _ _ E Hne Hw). congruence.
Qed.

Lemma resolveTwitchSource_channel_needs_word_end_witness :
  channel (resolveTwitchSource "https://www.twitch.tv/example/") = None.
Proof.
  exact (resolveTwitchSource_channel_needs_word_end
           "https://www.twitch.tv/example" "/"%char eq_refl).
Defined.

Lemma resolveTwitchSource_channel_iff_witness :
  resolveTwitchSource "see https://www.twitch.tv/example"
  = {| channel := Some "example"; videoId := None |}.
Proof.
  apply (proj2 (resolveTwitchSource_channel_iff
                  "see https://www.twitch.tv/example" "example")).
  split; [reflexivity|]. split.
  - unfold channel_name. split; [discriminate | split; reflexivity].
  - exists "see https://www.", "twitch.tv/". split; [left|]; reflexivity.
Defined.

Section VideoFacts.

(** The group of the video pattern takes the whole run of digits. *)
Lemma video_rest_match (y z : string) (g : option string) :
  m videoRest y None accept = Some (z, g) ->
  exists d,
    y = d +:+ z /\ d <> EmptyString /\ all_in digit d = true
    /\ starts_in digit z = false /\ g = Some d.
Proof.
  unfold videoRest. cbn [m].
  destruct y as [|a y]; [discriminate|].
  destruct (digit a) eqn:Ha; [|discriminate].
  intros H. apply star_greedy in H; [|discriminate].
  destruct H as (d & post & -> & Hd & Hp & H).
  unfold accept in H. injection H as <- <-.
  exists (String a d). rewrite <- append_cons, consumed_prefix.
  split; [reflexivity|]. split; [discriminate|].
  split; [simpl; now rewrite Ha, Hd|]. auto.
Qed.

Lemma video_rest_run (d post : string) :
  d <> EmptyString -> all_in digit d = true -> starts_in digit post = false ->
  m videoRest (d +:+ post) None accept = Some (post, Some d).
Proof.
  intros Hne Hd Hp. unfold videoRest. cbn [m].
  destruct d as [|a d]; [congruence|]. rewrite append_cons.
  simpl in Hd. apply andb_prop in Hd. destruct Hd as [Ha Hd]. rewrite Ha.
  apply star_run; auto.
  unfold accept. rewrite <- append_cons, consumed_prefix. reflexivity.
Qed.

Lemma video_rest_some (y : string) :
  starts_in digit y = true -> m videoRest y None accept <> None.
Proof.
  unfold videoRest. cbn [m]. destruct y as [|a y]; [discriminate|].
  simpl. intros ->. apply star_some. discriminate.
Qed.

Lemma exec_video_match (x z : string) (g : option string) :
  exec_at videoIdRE x = Some (z, g) ->
  exists lit d,
    In lit videoLiterals /\ x = lit +:+ d +:+ z /\ d <> EmptyString
    /\ all_in digit d = true /\ starts_in digit z = false /\ g = Some d.
Proof.
  rewrite exec_video. intros H.
  assert (A : forall lit,
            In lit videoLiterals ->
            match strip lit x with
            | Some y => m videoRest y None accept
            | None => None
            end = Some (z, g) ->
            exists lit d,
              In lit videoLiterals /\ x = lit +:+ d +:+ z /\ d <> EmptyString
              /\ all_in digit d = true /\ starts_in digit z = false
              /\ g = Some d).
  { intros lit Hl E. destruct (strip lit x) as [y|] eqn:Es; [|discriminate].
    apply strip_Some in Es. apply video_rest_match in E.
    destruct E as (d & -> & Hne & Hd & Hz & ->). exists lit, d. auto 7. }
  unfold videoLiterals in A.
  repeat match type of H with
  | match ?e with Some _ => _ | None => _ end = _ =>
      let E := fresh "E" in
      destruct e as [[? ?]|] eqn:E;
      [ injection H as -> ->; eapply A; [|exact E]; simpl; auto | ]
  end.
  eapply A; [|exact H]. simpl; auto.
Qed.

(** The attempt at a literal followed by a digit succeeds. *)
Lemma exec_video_here (lit rest : string) :
  In lit videoLiterals -> starts_in digit rest = true ->
  exec_at videoIdRE (lit +:+ rest) <> None.
Proof.
  intros Hl Hr. pose proof (video_rest_some rest Hr) as Hv.
  rewrite exec_video.
  destruct Hl as [<- | [<- | [<- | []]]].
  - rewrite strip_app. destruct (m videoRest rest None accept);
      [discriminate | contradiction].
  - rewrite (strip_app "player.twitch.tv/?video=").
    destruct (m videoRest rest None accept); [|contradiction].
    destruct (match strip "twitch.tv/videos/" _ with Some _ => _ | None => _ end);
      discriminate.
  - rewrite (strip_app "twitch/video/").
    destruct (m videoRest rest None accept); [|contradiction].
    repeat match goal with
    | |- context [match ?e with Some res => Some res | None => _ end] =>
        destruct e
    end; discriminate.
Qed.

Lemma video_match_some (pre lit rest : string) :
  In lit videoLiterals -> starts_in digit rest = true ->
  js_match videoIdRE (pre +:+ lit +:+ rest) <> None.
Proof.
  intros Hl Hr. induction pre as [|h pre IH].
  - rewrite append_nil_l.
    destruct (exec_at videoIdRE (lit +:+ rest)) as [[z g]|] eqn:E.
    + rewrite (js_match_here _ _ _ _ E). discriminate.
    + exfalso. eapply exec_video_here; eauto.
  - rewrite append_cons, js_match_cons.
    destruct (exec_at videoIdRE _) as [[z g]|]; [discriminate | exact IH].
Qed.

Lemma video_shape (src d : string) :
  videoId (resolveTwitchSource src) = Some d ->
  channel (resolveTwitchSource src) = None
  /\ d <> EmptyString /\ all_in digit d = true
  /\ exists pre lit post,
       In lit videoLiterals /\ src = pre +:+ lit +:+ d +:+ post
       /\ starts_in digit post = false.
Proof.
  unfold resolveTwitchSource.
  destruct (js_match videoIdRE src) as [g|] eqn:E.
  - simpl. intros ->. split; [reflexivity|].
    apply js_match_at in E. destruct E as (pre & x' & z & -> & E).
    apply exec_video_match in E.
    destruct E as (lit & d' & Hl & -> & Hne & Hd & Hz & [= <-]).
    repeat split; auto. exists pre, lit, z. auto.
  - destruct (js_match channelNameRE src); discriminate.
Qed.

End VideoFacts.

(** X3. A [videoId] that [resolveTwitchSource] returns is a non-empty run
    of digits that stands in the input right after one of the three video
    literals and is not followed by a further digit; no channel comes with
    it. *)
Theorem resolveTwitchSource_videoId_shape (src d : string) :
  videoId (resolveTwitchSource src) = Some d ->
  channel (resolveTwitchSource src) = None
  /\ d <> EmptyString /\ all_in digit d = true
  /\ exists pre lit post,
       In lit videoLiterals /\ src = pre +:+ lit +:+ d +:+ post
       /\ starts_in digit post = false.
Proof.
  intros H. unfold resolveTwitchSource in *.
  destruct (js_match videoIdRE src) as [g|] eqn:E.
  - simpl in *. subst g. split; [reflexivity|].
    apply js_match_at in E. destruct E as (pre & x' & z & -> & E).
    apply exec_video_match in E.
    destruct E as (lit & d' & Hl & -> & Hne & Hd & Hz & [= <-]).
    repeat split; auto. exists pre, lit, z. auto.
  - destruct (js_match channelNameRE src); discriminate.
Qed.

Lemma resolveTwitchSource_videoId_shape_witness :
  exists pre lit post,
    In lit videoLiterals
    /\ "https://www.twitch.tv/videos/123?t=1h" = pre +:+ lit +:+ "123" +:+ post
    /\ starts_in digit post = false.
Proof.
  exact (proj2 (proj2 (proj2
    (resolveTwitchSource_videoId_shape
       "https://www.twitch.tv/videos/123?t=1h" "123" eq_refl)))).
Defined.

(** X4. [resolveTwitchSource] returns a [videoId] exactly when the input
    contains, anywhere, one of the three video literals directly followed by
    a digit. *)
Theorem resolveTwitchSource_videoId_iff (src : string) :
  is_Some (videoId (resolveTwitchSource src))
  <-> exists pre lit rest,
        In lit videoLiterals /\ starts_in digit rest = true
        /\ src = pre +:+ lit +:+ rest.
Proof.
  split.
  - intros [d H]. apply video_shape in H.
    destruct H as (_ & Hne & Hd & pre & lit & post & Hl & -> & _).
    exists pre, lit, (d +:+ post). repeat split; auto.
    destruct d as [|a d]; [congruence|]. rewrite append_cons. simpl.
    simpl in Hd. apply andb_prop in Hd. tauto.
  - intros (pre & lit & rest & Hl & Hr & ->).
    pose proof (video_match_some pre lit rest Hl Hr) as H.
    unfold resolveTwitchSource.
    destruct (js_match videoIdRE _) as [g|] eqn:E; [|contradiction].
    destruct (js_match_captures _ _ _ exec_video_captures E) as [d ->].
    simpl. eauto.
Qed.

(** X5. Text after the ID does not matter: for every non-empty digit string
    [d] and every continuation that does not start with a digit, a query
    string for one, the three video shapes give [videoId = d]. *)
Theorem resolveTwitchSource_videoId_trailing (d post : string) :
  d <> EmptyString -> all_in digit d = true -> starts_in digit post = false ->
  resolveTwitchSource ("https://www.twitch.tv/videos/" +:+ d +:+ post)
  = {| channel := None; videoId := Some d |}
  /\ resolveTwitchSource ("https://player.twitch.tv/?video=" +:+ d +:+ post)
     = {| channel := None; videoId := Some d |}
  /\ resolveTwitchSource ("twitch/video/" +:+ d +:+ post)
     = {| channel := None; videoId := Some d |}.
Proof.
  intros Hne Hd Hp. pose proof (video_rest_run d post Hne Hd Hp) as Hv.
  unfold resolveTwitchSource.
  remember (d +:+ post) as y eqn:Ey. clear Ey.
  cbv [String.append].
  repeat split;
    repeat (rewrite js_match_cons, exec_video;
            cbn [strip Ascii.eqb Bool.eqb]; rewrite ?strip_nil, ?Hv);
    reflexivity.
Qed.

Lemma resolveTwitchSource_videoId_trailing_witness :
  resolveTwitchSource "https://www.twitch.tv/videos/123?t=1h"
  = {| channel := None; videoId := Some "123" |}.
Proof.
  apply (resolveTwitchSource_videoId_trailing "123" "?t=1h");
    [discriminate | reflexivity | reflexivity].
Defined.

(** * More on findTwitchPoster *)

Section ResultFacts.

Lemma resolved_url (t : task) (v : string) :
  task_ok t -> inner t = Fulfilled v ->
  v = EmptyString \/ In v (urls_of t).
Proof.
  unfold task_ok. destruct (frame t) as [[url rest]|].
  { intros (H & _) ?. congruence. }
  intros (_ & [H | [H | H]]) Hin.
  - destruct H as (lg & url & status & E & _ & _ & Hin' & more & Hm).
    assert (url = v) by congruence. subst url. right.
    rewrite <- Hm, E, map_app. simpl.
    apply in_or_app. left. apply in_or_app. right. left. reflexivity.
  - destruct H as (H & _). left. congruence.
  - destruct H as (H & _). left. congruence.
Qed.

Lemma probes_bound (t : task) : task_ok t -> length (probes t) <= 3.
Proof.
  unfold task_ok, probes, urls_of. intros H.
  assert (L : forall l more : list string,
            l ++ more = map (posterUrl (t_isChannel t) (t_src t)) sizes ->
            length l <= 3).
  { intros l more E. apply (f_equal (@length string)) in E.
    rewrite length_app in E. simpl in E. lia. }
  destruct (frame t) as [[url rest]|].
  - destruct H as (_ & _ & _ & H).
    apply (L _ (map (posterUrl (t_isChannel t) (t_src t)) rest)).
    rewrite <- app_assoc. exact H.
  - rewrite app_nil_r. destruct H as (_ & [H | [H | H]]).
    + destruct H as (lg & url & status & _ & _ & _ & _ & more & Hm). eauto.
    + destruct H as (_ & _ & H). apply (L _ []). now rewrite app_nil_r.
    + destruct H as (_ & lg & url & _ & _ & more & Hm). eauto.
Qed.

Lemma probed_insert (ts : list task) (p : nat) (t t' : task) :
  ts !! p = Some t ->
  probed (<[p := t']> ts) + length (probes t)
  = probed ts + length (probes t').
Proof.
  unfold probed. revert p. induction ts as [|x ts IH]; intros [|p] H;
    try discriminate; simpl in *.
  - injection H as ->. lia.
  - specialize (IH p H). lia.
Qed.

Lemma probed_snoc (ts : list task) (t : task) :
  probed (ts ++ [t]) = probed ts + length (probes t).
Proof. unfold probed. rewrite sum_list_with_app. simpl. lia. Qed.

Lemma probes_length (t : task) :
  length (probes t)
  = length (log t) + match frame t with Some _ => 1 | None => 0 end.
Proof.
  unfold probes. rewrite length_app, length_map.
  destruct (frame t) as [[url rest]|]; reflexivity.
Qed.

Ltac insert_eq s p t Hp E :=
  match goal with
  | |- context [<[p := ?t']> (tasks s)] =>
      pose proof (probed_insert (tasks s) p t t' Hp) as E;
      rewrite (probes_length t') in E
  end.

(** Every issued fetch belongs to a probe sequence, and a call starts at
    most one sequence. *)
Lemma budget_step (s s' : state) (e : event) :
  step e s = Some s' ->
  length (fetched s) = probed (tasks s) ->
  length (fetched s') = probed (tasks s')
  /\ length (tasks s') <= length (tasks s) + (if a_call e then 1 else 0).
Proof.
  intros Hs Hb. destruct e as [src b | p o | p]; simpl in Hs.
  - injection Hs as <-. unfold findTwitchPoster.
    destruct (posterCache s !! cacheKey src b); [simpl; lia|].
    destruct (pendingFetch s !! cacheKey src b); [simpl; lia|].
    simpl. rewrite !length_app, probed_snoc, probes_length. simpl. lia.
  - unfold fetch_settles in Hs.
    destruct (tasks s !! p) as [t|] eqn:Hp; [|discriminate].
    destruct (frame t) as [[url rest]|] eqn:Hf; [|discriminate].
    pose proof (probes_length t) as Ht. rewrite Hf in Ht.
    destruct o as [status|]; simpl in Hs.
    + destruct (status <? 400)%N; simpl in Hs.
      * injection Hs as <-. simpl. rewrite length_insert.
        insert_eq s p t Hp E. simpl in E.
        rewrite length_app in E. simpl in E. split; lia.
      * destruct rest as [|sz rest]; simpl in Hs; injection Hs as <-; simpl;
          rewrite length_insert;
          insert_eq s p t Hp E; simpl in E;
          rewrite length_app in E; simpl in E;
          rewrite ?length_app; simpl; split; lia.
    + injection Hs as <-. simpl. rewrite length_insert.
      insert_eq s p t Hp E. simpl in E.
      rewrite length_app in E. simpl in E. split; lia.
  - unfold run_finally in Hs.
    destruct (tasks s !! p) as [t|] eqn:Hp; [|discriminate].
    pose proof (probes_length t) as Ht.
    destruct (inner t) eqn:Hin, (outer t); try discriminate;
      injection Hs as <-; simpl; rewrite length_insert;
      insert_eq s p t Hp E; simpl in E;
      split; lia.
Qed.

Lemma budget_run (es : list event) (s s' : state) :
  run es s = Some s' ->
  length (fetched s) = probed (tasks s) ->
  length (fetched s') = probed (tasks s')
  /\ length (tasks s') <= length (tasks s) + calls es.
Proof.
  revert s. induction es as [|e es IH]; simpl; intros s.
  - intros [= <-] H. unfold calls. simpl. split; [exact H | lia].
  - destruct (step e s) as [s1|] eqn:E; [|discriminate].
    intros Hr Hb. destruct (budget_step s s1 e E Hb) as [Hb1 Hl1].
    destruct (IH s1 Hr Hb1) as [Hb' Hl']. split; [exact Hb'|].
    unfold calls in *. simpl. destruct (a_call e); simpl in *; lia.
Qed.

Lemma probed_bound (ts : list task) :
  (forall p t, ts !! p = Some t -> task_ok t) -> probed ts <= 3 * length ts.
Proof.
  unfold probed. induction ts as [|x ts IH]; intros H; simpl; [lia|].
  pose proof (probes_bound x (H 0 x eq_refl)).
  assert (sum_list_with (fun t => length (probes t)) ts <= 3 * length ts).
  { apply IH. intros p t Hp. apply (H (S p) t Hp). }
  lia.
Qed.

End ResultFacts.

(** X6. Whatever [findTwitchPoster] gives back belongs to the requested
    source and kind: a string returned from the cache is one of the three
    URLs of that source in that format, never the empty string and never a
    URL of the other format; a returned promise is fulfilled with the empty
    string or with one of the three URLs of its source. *)
Theorem findTwitchPoster_result_urls (es : list event) (s : state) :
  run es init = Some s ->
  (forall src isChannel u s',
      findTwitchPoster src isChannel s = (Value u, s') ->
      In u (map (posterUrl isChannel src) sizes))
  /\ (forall p t v,
        tasks s !! p = Some t -> outer t = Fulfilled v ->
        v = EmptyString \/ In v (urls_of t)).
Proof.
  intros Hr. pose proof (Inv_reached es s Hr) as I. split.
  - intros src b u s'. unfold findTwitchPoster.
    destruct (posterCache s !! cacheKey src b) as [u'|] eqn:Hc.
    + intros [= <- _]. apply (inv_cache s I) in Hc.
      destruct Hc as (p & t & Ht & Hk & Hin & Hu).
      apply cacheKey_inj in Hk. destruct Hk as [<- <-].
      destruct (resolved_url t u' (inv_tasks s I p t Ht) Hin); [contradiction|].
      assumption.
    + destruct (pendingFetch s !! cacheKey src b); [discriminate|].
      simpl. discriminate.
  - intros p t v Ht Ho. pose proof (inv_tasks s I p t Ht) as Hok.
    apply resolved_url; [exact Hok|].
    unfold task_ok in Hok. destruct (frame t) as [[url rest]|].
    + destruct Hok as (_ & H & _). congruence.
    + destruct Hok as ([H | H] & _); congruence.
Qed.

Lemma findTwitchPoster_result_urls_witness :
  In "https://static-cdn.jtvnw.net/cf_vods/7/thumb/thumb0-1280x720.jpg"
     (map (posterUrl false "7") sizes).
Proof.
  destruct (findTwitchPoster_result_urls
    [Call "7" false; FetchSettles 0 (Response 404); FetchSettles 0 (Response 200)]
    _ eq_refl) as [H _].
  exact (H "7" false _ _ eq_refl).
Defined.

(** X7. The calls bound the network traffic: after any run of events, at
    most three fetches have been issued per call of [findTwitchPoster], and
    each issued fetch is a probe of exactly one probe sequence. *)
Theorem findTwitchPoster_fetch_budget (es : list event) (s : state) :
  run es init = Some s ->
  length (fetched s) = probed (tasks s)
  /\ length (tasks s) <= calls es
  /\ length (fetched s) <= 3 * calls es.
Proof.
  intros Hr. pose proof (Inv_reached es s Hr) as I.
  destruct (budget_run es init s Hr eq_refl) as [Hb Hl]. simpl in Hl.
  pose proof (probed_bound (tasks s) (inv_tasks s I)).
  repeat split; lia.
Qed.

Lemma findTwitchPoster_fetch_budget_witness :
  length (fetched (default init
    (run [Call "x" true; Call "x" true; FetchSettles 0 (Response 500);
          Call "y" false] init))) <= 3 * 3.
Proof.
  exact (proj2 (proj2 (findTwitchPoster_fetch_budget
    [Call "x" true; Call "x" true; FetchSettles 0 (Response 500); Call "y" false]
    _ eq_refl))).
Defined.

(** X8. Keys do not interfere. A call never writes [posterCache] and only
    touches the [pendingFetch] entry of its own key; the events of a probe
    sequence leave the entries of all other keys in both maps as they are. *)
Theorem findTwitchPoster_own_key_only (s s' : state) (e : event) (k : string) :
  step e s = Some s' ->
  match e with
  | Call src isChannel => k <> cacheKey src isChannel
  | FetchSettles p _ | RunFinally p =>
      forall t, tasks s !! p = Some t -> k <> t_key t
  end ->
  posterCache s' !! k = posterCache s !! k
  /\ pendingFetch s' !! k = pendingFetch s !! k
  /\ match e with
     | Call _ _ => posterCache s' = posterCache s
     | _ => True
     end.
Proof.
  intros Hs Hk. destruct e as [src b | p o | p]; simpl in Hs.
  - injection Hs as <-. unfold findTwitchPoster.
    destruct (posterCache s !! cacheKey src b); [auto|].
    destruct (pendingFetch s !! cacheKey src b); [auto|].
    simpl. rewrite lookup_insert_ne by congruence. auto.
  - unfold fetch_settles in Hs.
    destruct (tasks s !! p) as [t|] eqn:Hp; [|discriminate].
    specialize (Hk t eq_refl).
    destruct (frame t) as [[url rest]|]; [|discriminate].
    destruct o as [status|]; simpl in Hs.
    + destruct (status <? 400)%N; simpl in Hs.
      * injection Hs as <-. simpl. rewrite lookup_insert_ne by congruence. auto.
      * destruct rest; simpl in Hs; injection Hs as <-; auto.
    + injection Hs as <-. auto.
  - unfold run_finally in Hs.
    destruct (tasks s !! p) as [t|] eqn:Hp; [|discriminate].
    specialize (Hk t eq_refl).
    destruct (inner t), (outer t); try discriminate; injection Hs as <-; simpl;
      rewrite lookup_delete_ne by congruence; auto.
Qed.

Lemma findTwitchPoster_own_key_only_witness :
  posterCache (default init
    (run [Call "x" true; Call "x" false; FetchSettles 0 (Response 200)] init))
    !! "video-x" = None.
Proof.
  destruct (findTwitchPoster_own_key_only
    (default init (run [Call "x" true; Call "x" false] init)) _
    (FetchSettles 0 (Response 200)) "video-x" eq_refl) as [H _].
  - intros t [= <-]. discriminate.
  - exact H.
Defined.

(** X9. Distinct requests never share a cache key: the key determines the
    source and the kind. *)
Theorem cacheKey_injective (src src' : string) (isChannel isChannel' : bool) :
  cacheKey src isChannel = cacheKey src' isChannel' <->
  src = src' /\ isChannel = isChannel'.
Proof.
  split.
  - unfold cacheKey.
    destruct isChannel, isChannel'; cbv [String.append]; intros H;
      inversion H; auto.
  - intros [-> ->]. reflexivity.
Qed.

(** X10. Asking again at once changes nothing: a second call of
    [findTwitchPoster] for the same source and kind, made right after the
    first, issues no fetch, leaves the state as the first call left it, and
    returns what the first call returned. *)
Theorem findTwitchPoster_twice (src : string) (isChannel : bool) (s : state) :
  findTwitchPoster src isChannel (snd (findTwitchPoster src isChannel s))
  = findTwitchPoster src isChannel s.
Proof.
  destruct (posterCache s !! cacheKey src isChannel) as [u|] eqn:Hc.
  { unfold findTwitchPoster. rewrite Hc. simpl. rewrite Hc. reflexivity. }
  destruct (pendingFetch s !! cacheKey src isChannel) as [p|] eqn:Hp.
  { unfold findTwitchPoster. rewrite Hc, Hp. simpl. rewrite Hc, Hp. reflexivity. }
  rewrite (findTwitchPoster_fresh src isChannel s Hc Hp). simpl.
  unfold findTwitchPoster at 1. simpl. rewrite Hc, lookup_insert_eq. reflexivity.
Qed.

(** * loadPoster *)

Section LoaderFacts.

(** The three results of [resolveTwitchSource]. *)
Lemma resolve_shape (str : string) :
  (exists d, d <> EmptyString /\ all_in digit d = true
             /\ resolveTwitchSource str = {| channel := None; videoId := Some d |})
  \/ (exists c, channel_name c
                /\ resolveTwitchSource str = {| channel := Some c; videoId := None |})
  \/ resolveTwitchSource str = {| channel := None; videoId := None |}.
Proof.
  unfold resolveTwitchSource.
  destruct (js_match videoIdRE str) as [g|] eqn:Ev.
  - left. apply js_match_at in Ev. destruct Ev as (pre & x' & z & _ & E).
    apply exec_video_match in E.
    destruct E as (lit & d & _ & _ & Hne & Hd & _ & ->). eauto.
  - destruct (js_match channelNameRE str) as [g|] eqn:Ec; [|auto].
    right. left. apply js_match_at in Ec. destruct Ec as (pre & x' & z & _ & E).
    apply exec_channel_match in E.
    destruct E as (lit & c & _ & _ & Hc & ->). eauto.
Qed.

Lemma truthy_nonempty (c : string) :
  c <> EmptyString -> truthy (Some c) = Some c.
Proof. destruct c; [congruence | reflexivity]. Qed.

(** What a call of [findTwitchPoster] adds to the issued fetches. *)
Lemma findTwitchPoster_fetched (src : string) (b : bool) (s : state) :
  fetched (snd (findTwitchPoster src b s)) = fetched s
  \/ fetched (snd (findTwitchPoster src b s))
     = fetched s ++ [posterUrl b src {| width := 1920; height := 1080 |}].
Proof.
  unfold findTwitchPoster.
  destruct (posterCache s !! cacheKey src b); [auto|].
  destruct (pendingFetch s !! cacheKey src b); [auto|].
  right. reflexivity.
Qed.

End LoaderFacts.

(** X11. [loadPoster] gives [null] exactly when the source is not a string
    or is a string in which neither pattern finds an identifier; in that
    case it touches neither map and issues no fetch. *)
Theorem loadPoster_null (src : Src.t) (s : state) :
  (fst (loadPoster src s) = Null
   <-> match Src.src src with
       | None => True
       | Some str =>
           resolveTwitchSource str = {| channel := None; videoId := None |}
       end)
  /\ (fst (loadPoster src s) = Null -> snd (loadPoster src s) = s).
Proof.
  unfold loadPoster. destruct (Src.src src) as [str|]; simpl; [|tauto].
  destruct (resolve_shape str) as [(d & Hne & _ & ->) | [(c & (Hne & _) & ->) | ->]].
  - destruct d as [|a d]; [congruence|]. simpl.
    destruct (findTwitchPoster (String a d) false s). simpl.
    split; [split|]; discriminate.
  - destruct c as [|a c]; [congruence|]. simpl.
    destruct (findTwitchPoster (String a c) true s). simpl.
    split; [split|]; discriminate.
  - simpl. tauto.
Qed.

(** X12. What [loadPoster] fetches is determined by its source. It gives
    [null] and leaves the state as it is, or the [src] property is a string
    in which [resolveTwitchSource] finds a channel name (non-empty, of word
    characters, not starting with [video]) or else a video ID (non-empty,
    of digits), and the call is [findTwitchPoster] for that identifier and
    kind. The call itself issues no fetch or the 1920x1080 probe of that
    identifier. A string it gives back is one of the three URLs of that
    identifier; a promise it gives back is, in every later state, a probe
    sequence of that identifier and kind: its fetches are a non-empty
    prefix of those three URLs, and it is fulfilled with the empty string
    or with one of them. *)
Theorem loadPoster_fetches (js : list job) (fs : fstate) (src : Src.t) :
  frun js finit = Some fs ->
  loadPoster src (base fs) = (Null, base fs)
  \/ exists (str name : string) (kind : bool),
       Src.src src = Some str
       /\ resolveTwitchSource str
          = (if kind then {| channel := Some name; videoId := None |}
             else {| channel := None; videoId := Some name |})
       /\ (if kind then channel_name name
           else name <> EmptyString /\ all_in digit name = true)
       /\ loadPoster src (base fs)
          = (Loaded (fst (findTwitchPoster name kind (base fs))),
             snd (findTwitchPoster name kind (base fs)))
       /\ (fetched (snd (loadPoster src (base fs))) = fetched (base fs)
           \/ fetched (snd (loadPoster src (base fs)))
              = fetched (base fs)
                ++ [posterUrl kind name {| width := 1920; height := 1080 |}])
       /\ match fst (findTwitchPoster name kind (base fs)) with
          | Value u =>
              In u (map (posterUrl kind name) sizes)
              /\ snd (loadPoster src (base fs)) = base fs
          | Promise p =>
              forall js' fs',
                frun js' {| base := snd (loadPoster src (base fs));
                            cleaned := cleaned fs |} = Some fs' ->
                exists t,
                  tasks (base fs') !! p = Some t
                  /\ t_src t = name /\ t_isChannel t = kind
                  /\ probes t <> []
                  /\ (exists more,
                         probes t ++ more = map (posterUrl kind name) sizes)
                  /\ (forall v, outer t = Fulfilled v ->
                        v = EmptyString
                        \/ In v (map (posterUrl kind name) sizes))
          end.
Proof.
  intros Hr. pose proof (FInv_reached js fs Hr) as I.
  assert (G : forall name kind,
            match fst (findTwitchPoster name kind (base fs)) with
            | Value u =>
                In u (map (posterUrl kind name) sizes)
                /\ snd (findTwitchPoster name kind (base fs)) = base fs
            | Promise p =>
                forall js' fs',
                  frun js' {| base := snd (findTwitchPoster name kind (base fs));
                              cleaned := cleaned fs |} = Some fs' ->
                  exists t,
                    tasks (base fs') !! p = Some t
                    /\ t_src t = name /\ t_isChannel t = kind
                    /\ probes t <> []
                    /\ (exists more,
                           probes t ++ more = map (posterUrl kind name) sizes)
                    /\ (forall v, outer t = Fulfilled v ->
                          v = EmptyString
                          \/ In v (map (posterUrl kind name) sizes))
            end).
  { intros name kind.
    destruct (fst (findTwitchPoster name kind (base fs))) as [u|p] eqn:Er.
    - unfold findTwitchPoster in Er |- *.
      destruct (posterCache (base fs) !! cacheKey name kind) as [u'|] eqn:Hc.
      + simpl in Er. injection Er as ->. split; [|reflexivity].
        apply (f_cache fs I) in Hc. destruct Hc as (p & t & Ht & Hk & Hin & Hu).
        apply cacheKey_inj in Hk. destruct Hk as [<- <-].
        destruct (resolved_url t u (f_tasks fs I p t Ht) Hin);
          [contradiction | assumption].
      + destruct (pendingFetch (base fs) !! cacheKey name kind); discriminate.
    - intros js' fs' Hrun.
      destruct (call_promise_task fs name kind p I Er) as (t0 & Ht0 & Hs0 & Hb0).
      assert (I1 : FInv {| base := snd (findTwitchPoster name kind (base fs));
                           cleaned := cleaned fs |}).
      { apply (FInv_step fs _ (JCall name kind) I). reflexivity. }
      destruct (frun_task js' _ fs' p t0 Hrun Ht0) as (t & Ht & Hs & Hb).
      pose proof (f_tasks fs' (FInv_run js' _ fs' I1 Hrun) p t Ht) as Hok.
      assert (U : urls_of t = map (posterUrl kind name) sizes).
      { unfold urls_of. congruence. }
      exists t. rewrite <- U.
      split; [exact Ht|]. split; [congruence|]. split; [congruence|].
      split; [apply probes_prefix, Hok|]. split; [apply probes_prefix, Hok|].
      intros v Ho. apply resolved_url; [exact Hok|].
      unfold task_ok in Hok. destruct (frame t) as [[url rest]|].
      + destruct Hok as (_ & H & _). congruence.
      + destruct Hok as ([H | H] & _); congruence. }
  unfold loadPoster. destruct (Src.src src) as [str|] eqn:Es; [|left; reflexivity].
  destruct (resolve_shape str) as [(d & Hne & Hd & E) | [(c & Hc & E) | E]];
    [| |left; rewrite E; reflexivity].
  - right. exists str, d, false. rewrite E.
    destruct d as [|a d]; [congruence|].
    cbn [isString negb channel videoId truthy].
    pose proof (findTwitchPoster_fetched (String a d) false (base fs)) as F.
    specialize (G (String a d) false).
    destruct (findTwitchPoster (String a d) false (base fs)) as [r s'].
    cbn [fst snd] in *. auto 10.
  - right. exists str, c, true. rewrite E.
    pose proof Hc as (Hne & _). destruct c as [|a c]; [congruence|].
    cbn [isString negb channel videoId truthy].
    pose proof (findTwitchPoster_fetched (String a c) true (base fs)) as F.
    specialize (G (String a c) true).
    destruct (findTwitchPoster (String a c) true (base fs)) as [r s'].
    cbn [fst snd] in *. auto 10.
Qed.

Lemma loadPoster_fetches_witness :
  exists t,
    tasks (base (default finit
      (frun [JFetch 0 (Response 404); JFetch 0 (Response 404)]
         {| base := snd (loadPoster
                           {| Src.src := Some "https://www.twitch.tv/abc";
                              Src.type := "video/twitch" |} init);
            cleaned := ∅ |}))) !! 0 = Some t
    /\ t_src t = "abc" /\ t_isChannel t = true
    /\ exists more, probes t ++ more = map (posterUrl true "abc") sizes.
Proof.
  destruct (loadPoster_fetches []
              finit {| Src.src := Some "https://www.twitch.tv/abc";
                       Src.type := "video/twitch" |} eq_refl)
    as [H | (str & name & kind & Hs & Hres & _ & _ & _ & H)].
  - vm_compute in H. discriminate.
  - simpl in Hs. injection Hs as <-.
    assert (E : resolveTwitchSource "https://www.twitch.tv/abc"
                = {| channel := Some "abc"; videoId := None |})
      by (vm_compute; reflexivity).
    rewrite E in Hres.
    destruct kind; [|discriminate]. injection Hres as <-.
    destruct (H [JFetch 0 (Response 404); JFetch 0 (Response 404)] _ eq_refl)
      as (t & Ht & Hsrc & Hk & _ & Hm & _).
    exists t. split; [exact Ht|]. split; [exact Hsrc|]. split; [exact Hk|].
    exact Hm.
Defined.

(** * More on twitchQualityToVideoQuality *)

Section QualityFacts.

Context {number : Type}.

Lemma none_selected (qs : list (TwitchQuality.t number)) (a : string) :
  ~ In a (map TwitchQuality.name qs) ->
  List.filter VideoQuality.selected
    (map (fun q => twitchQualityToVideoQuality q (Some a)) qs) = [].
Proof.
  induction qs as [|q qs IH]; simpl; intros H; [reflexivity|].
  destruct (String.eqb a (TwitchQuality.name q)) eqn:E.
  - apply String.eqb_eq in E. exfalso. apply H. left. congruence.
  - apply IH. intros Hin. apply H. right. exact Hin.
Qed.

End QualityFacts.

(** X13. Converting a list of qualities with pairwise distinct names
    selects at most one of them, whatever the active quality is, and none
    when no active quality is given. *)
Theorem twitchQualityToVideoQuality_one_selected (number : Type)
    (qs : list (TwitchQuality.t number)) (a : option string) :
  List.NoDup (map TwitchQuality.name qs) ->
  length (List.filter VideoQuality.selected
            (map (fun q => twitchQualityToVideoQuality q a) qs)) <= 1
  /\ (a = None ->
      List.filter VideoQuality.selected
        (map (fun q => twitchQualityToVideoQuality q a) qs) = []).
Proof.
  intros Hn. split.
  - destruct a as [a|].
    + induction qs as [|q qs IH]; simpl; [lia|].
      inversion Hn as [|x l Hx Hl]; subst.
      destruct (String.eqb a (TwitchQuality.name q)) eqn:E.
      * apply String.eqb_eq in E. subst a. simpl.
        rewrite (none_selected qs _ Hx). simpl. lia.
      * apply IH, Hl.
    + induction qs as [|q qs IH]; simpl; [lia|].
      inversion Hn; subst. auto.
  - intros ->. clear Hn. induction qs as [|q qs IH]; simpl; auto.
Qed.

Lemma twitchQualityToVideoQuality_one_selected_witness :
  length (List.filter VideoQuality.selected
            (map (fun q => twitchQualityToVideoQuality q (Some "720p"))
               [ TwitchQuality.mk "1080p" 1920%N 1080%N 6000%N "avc1";
                 TwitchQuality.mk "720p" 1280%N 720%N 3000%N "avc1" ])) <= 1.
Proof.
  apply (twitchQualityToVideoQuality_one_selected N).
  repeat constructor; simpl; intros H; decompose [or] H; discriminate || assumption.
Defined.

Section SlashFacts.

Lemma resolveTwitchSource_channel_shape (src c : string) :
  resolveTwitchSource src = {| channel := Some c; videoId := None |} ->
  exists pre lit, In lit channelLiterals /\ src = pre +:+ lit +:+ c.
Proof.
  unfold resolveTwitchSource.
  destruct (js_match videoIdRE src); [discriminate|].
  destruct (js_match channelNameRE src) as [g|] eqn:E; [|discriminate].
  intros [= ->]. apply channel_match_iff in E. tauto.
Qed.

End SlashFacts.

(** X14. A source without a slash never resolves: every literal of the two
    patterns contains one, so a bare channel name or a bare ID gives neither
    identifier. *)
Theorem resolveTwitchSource_needs_slash (src : string) :
  all_in (fun a => negb (Ascii.eqb a "/")) src = true ->
  resolveTwitchSource src = {| channel := None; videoId := None |}.
Proof.
  intros H.
  destruct (resolve_shape src) as [(d & _ & _ & E) | [(c & _ & E) | E]];
    [| |exact E]; exfalso.
  - assert (Hv : videoId (resolveTwitchSource src) = Some d) by now rewrite E.
    apply video_shape in Hv.
    destruct Hv as (_ & _ & _ & pre & lit & post & Hl & -> & _).
    rewrite !all_in_app in H.
    destruct Hl as [<- | [<- | [<- | []]]]; simpl in H;
      rewrite ?andb_false_r, ?andb_false_l in H; discriminate.
  - apply resolveTwitchSource_channel_shape in E.
    destruct E as (pre & lit & Hl & ->).
    rewrite !all_in_app in H.
    destruct Hl as [<- | [<- | [<- | []]]]; simpl in H;
      rewrite ?andb_false_r, ?andb_false_l in H; discriminate.
Qed.

Lemma resolveTwitchSource_needs_slash_witness :
  resolveTwitchSource "example" = {| channel := None; videoId := None |}.
Proof. exact (resolveTwitchSource_needs_slash "example" eq_refl). Defined.

Section OriginFacts.

Lemma preconnect_appends (hinted : list string) :
  preconnect hinted = hinted ++ connections.
Proof.
  unfold preconnect. generalize connections. intros l. revert hinted.
  induction l as [|u l IH]; intros hinted; simpl.
  - now rewrite app_nil_r.
  - rewrite IH, <- app_assoc. reflexivity.
Qed.

Lemma posterUrl_origin (b : bool) (src : string) (sz : size) :
  starts_with "https://static-cdn.jtvnw.net/" (posterUrl b src sz) = true.
Proof.
  destruct b; cbv [posterUrl channelUrl videoUrl String.append];
    reflexivity.
Qed.

(** Every issued fetch is a probe of one of the three URLs of some source. *)
Lemma fetched_step (s s' : state) (e : event) (P : string -> Prop) :
  (forall b src sz, P (posterUrl b src sz)) ->
  step e s = Some s' -> Forall P (fetched s) -> Forall P (fetched s').
Proof.
  intros HP Hs Hf. destruct e as [src b | p o | p]; simpl in Hs.
  - injection Hs as <-. unfold findTwitchPoster.
    destruct (posterCache s !! cacheKey src b); [exact Hf|].
    destruct (pendingFetch s !! cacheKey src b); [exact Hf|].
    simpl. apply Forall_app. split; [exact Hf|]. repeat constructor. apply HP.
  - unfold fetch_settles in Hs.
    destruct (tasks s !! p) as [t|]; [|discriminate].
    destruct (frame t) as [[url rest]|]; [|discriminate].
    destruct o as [status|]; simpl in Hs.
    + destruct (status <? 400)%N; simpl in Hs.
      * injection Hs as <-. exact Hf.
      * destruct rest; simpl in Hs; injection Hs as <-; simpl; [exact Hf|].
        apply Forall_app. split; [exact Hf|]. repeat constructor. apply HP.
    + injection Hs as <-. exact Hf.
  - unfold run_finally in Hs.
    destruct (tasks s !! p) as [t|]; [|discriminate].
    destruct (inner t), (outer t); try discriminate; injection Hs as <-;
      exact Hf.
Qed.

Lemma fetched_run (es : list event) (s s' : state) (P : string -> Prop) :
  (forall b src sz, P (posterUrl b src sz)) ->
  run es s = Some s' -> Forall P (fetched s) -> Forall P (fetched s').
Proof.
  intros HP. revert s. induction es as [|e es IH]; simpl; intros s.
  - intros [= <-]. auto.
  - destruct (step e s) as [s1|] eqn:E; [|discriminate].
    intros Hr Hf. apply (IH s1 Hr). eapply fetched_step; eauto.
Qed.

End OriginFacts.

(** X15. Every URL that [findTwitchPoster] ever fetches lies under one of
    the origins the loader's [preconnect] hints at, namely
    [https://static-cdn.jtvnw.net], whatever was hinted before. *)
Theorem findTwitchPoster_fetches_preconnected (es : list event) (s : state)
    (hinted : list string) (u : string) :
  run es init = Some s -> In u (fetched s) ->
  exists origin,
    In origin (preconnect hinted)
    /\ origin = "https://static-cdn.jtvnw.net"
    /\ starts_with (origin +:+ "/") u = true.
Proof.
  intros Hr Hu. exists "https://static-cdn.jtvnw.net". split; [|split].
  - rewrite preconnect_appends. apply in_or_app. right.
    right. left. reflexivity.
  - reflexivity.
  - pose proof (fetched_run es init s
                  (fun u => starts_with "https://static-cdn.jtvnw.net/" u = true)
                  posterUrl_origin Hr (List.Forall_nil _)) as H.
    rewrite List.Forall_forall in H. apply H, Hu.
Qed.

Lemma findTwitchPoster_fetches_preconnected_witness :
  exists origin,
    In origin (preconnect [])
    /\ origin = "https://static-cdn.jtvnw.net"
    /\ starts_with (origin +:+ "/")
         "https://static-cdn.jtvnw.net/previews-ttv/live_user_x-1920x1080.jpg"
       = true.
Proof.
  apply (findTwitchPoster_fetches_preconnected [Call "x" true] _ [] _ eq_refl).
  left. reflexivity.
Defined.

(** X16. [pendingFetch] does not leak: once every promise created so far
    has settled, the map is empty. *)
Theorem pendingFetch_no_leak (es : list event) (s : state) :
  run es init = Some s ->
  (forall p t, tasks s !! p = Some t -> outer t <> Pending) ->
  pendingFetch s = ∅.
Proof.
  intros Hr H. pose proof (Inv_reached es s Hr) as I.
  apply map_eq. intros k. rewrite lookup_empty.
  destruct (pendingFetch s !! k) as [p|] eqn:E; [|reflexivity].
  apply (inv_pending s I) in E. destruct E as (t & Ht & _ & Ho).
  exfalso. eapply H; eauto.
Qed.

Lemma pendingFetch_no_leak_witness :
  pendingFetch (default init
    (run [Call "x" true; FetchSettles 0 NetworkError; RunFinally 0] init)) = ∅.
Proof.
  apply (pendingFetch_no_leak
           [Call "x" true; FetchSettles 0 NetworkError; RunFinally 0] _ eq_refl).
  intros [|p] t H; [|discriminate]. injection H as <-. discriminate.
Defined.
